(** * SankeyMATIC flow generation from a cloud cost table

    Shallow embedding of [create-sankematicSource.py]: [generate_sankey_data]
    with [get_label], then [load_overwrite_map] and [main], followed by the
    properties of the category selection, the aggregation, the emission of
    the three flow blocks, the label map and the formatted file.

    Conventions of the embedding.
    - A dataframe is the list of its rows, in row order.  A [Series] indexed by
      labels is the list of its (label, value) pairs, in index order.
    - A cell of the columns [MeterCategory], [PricingModel] and [Environment]
      is a text or is missing (NaN): [Some] text or [None].  pandas stores
      one and the same object, [numpy.nan], in every missing cell.
    - A cell of the column [Monthy Cost] is the text that [astype(str)]
      makes of it on line 50: the cell itself when it is a text, the
      decimal writing of a number, ['nan'] when it is missing.
    - The cost column is [int64] after line 50: every sum computed by pandas is
      wrapped to 64 bits ([wrap64]).
    - A text is a sequence of 8-bit characters.  Names are compared, ordered
      and concatenated only, so a name may be read as its UTF-8 bytes, whose
      order is the code point order Python uses.  The characters of a cost
      cell are read one by one: a cost cell is a text of characters with code
      points below 256. *)

From Stdlib Require Import ZArith String Ascii.
From stdpp Require Import base decidable option list sorting gmap strings pretty.

Local Open Scope string_scope.
Local Open Scope Z_scope.

(** ** Cost normalizer: line 50

    [df['Monthy Cost'].astype(str).str.replace(',', '').astype(float).round(0).astype(int)] *)

Module Cost.

(** [str.replace(',', '')]: every comma goes, wherever it stands. *)
Fixpoint remove_commas (s : string) : string :=
  match s with
  | EmptyString => EmptyString
  | String c r =>
      if Ascii.eqb c "," then remove_commas r else String c (remove_commas r)
  end.

Definition code (c : ascii) : Z := Z.of_N (N_of_ascii c).

Definition digit_of (c : ascii) : option Z :=
  let n := Z.of_N (N_of_ascii c) in
  if (48 <=? n) && (n <=? 57) then Some (n - 48) else None.

Definition is_digit (c : ascii) : bool :=
  match digit_of c with Some _ => true | None => false end.

(** What [float()] strips at both ends: the blanks of C ([Py_ISSPACE]: tab,
    line feed, vertical tab, form feed, carriage return, space) and, of the
    characters from 128 to 255, the two that Python counts as white space
    (next line, no-break space) and turns into a space before it parses. *)
Definition is_space (c : ascii) : bool :=
  let n := code c in
  ((9 <=? n) && (n <=? 13)) || (n =? 32) || (n =? 133) || (n =? 160).

(** An underscore is accepted between two digits and nowhere else; the
    accepted ones are dropped.  [prev] is the character before [s]. *)
Fixpoint remove_underscores_from (prev : ascii) (s : string) : option string :=
  match s with
  | EmptyString => if Ascii.eqb prev "_" then None else Some EmptyString
  | String c r =>
      if Ascii.eqb c "_" then
        if is_digit prev then remove_underscores_from c r else None
      else if Ascii.eqb prev "_" && negb (is_digit c) then None
      else String c <$> remove_underscores_from c r
  end.

Definition remove_underscores (s : string) : option string :=
  remove_underscores_from "000" s.

Fixpoint lstrip (s : string) : string :=
  match s with
  | EmptyString => EmptyString
  | String c r => if is_space c then lstrip r else s
  end.

Fixpoint rstrip (s : string) : string :=
  match s with
  | EmptyString => EmptyString
  | String c r =>
      match rstrip r with
      | EmptyString => if is_space c then EmptyString else String c EmptyString
      | r' => String c r'
      end
  end.

Definition strip (s : string) : string := rstrip (lstrip s).

(** A decimal literal: sign, all the digits of its mantissa read as one
    integer, and the power of ten that scales them down.  Its value is
    [(-1)^neg * digits / 10^scale]; [scale] is the number of digits after
    the point less the exponent, and is negative when the exponent is the
    larger. *)
Record literal := Literal { neg : bool; digits : Z; scale : Z }.

(** The digits with the sign of the literal. *)
Definition signed_digits (l : literal) : Z :=
  if neg l then - digits l else digits l.

(** Reads a run of digits on top of [acc]; returns the integer read, how
    many digits it took, and the rest of the string. *)
Fixpoint read_digits (s : string) (acc : Z) (n : Z) : Z * Z * string :=
  match s with
  | EmptyString => (acc, n, s)
  | String c r =>
      match digit_of c with
      | Some d => read_digits r (10 * acc + d) (n + 1)
      | None => (acc, n, s)
      end
  end.

Definition read_sign (s : string) : bool * string :=
  match s with
  | String "-" r => (true, r)
  | String "+" r => (false, r)
  | _ => (false, s)
  end.

(** The exponent part, which ends the literal: nothing, or [e] or [E], an
    optional sign and at least one digit. *)
Definition read_exponent (s : string) : option Z :=
  match s with
  | EmptyString => Some 0
  | String c r =>
      if Ascii.eqb c "e" || Ascii.eqb c "E" then
        let '(sg, r1) := read_sign r in
        let '(v, n, r2) := read_digits r1 0 0 in
        match r2 with
        | EmptyString => if 0 <? n then Some (if sg then - v else v) else None
        | _ => None
        end
      else None
  end.

(** The decimal literals of [float()]:
    [[sign] digits ["." [digits]] [exponent]] and
    [[sign] "." digits [exponent]]. *)
Definition parse_literal (s : string) : option literal :=
  let '(sg, s1) := read_sign s in
  let '(ip, ni, s2) := read_digits s1 0 0 in
  match s2 with
  | String "." s3 =>
      let '(fp, nf, s4) := read_digits s3 ip 0 in
      if 0 <? ni + nf
      then (λ e, Literal sg fp (nf - e)) <$> read_exponent s4
      else None
  | _ =>
      if 0 <? ni
      then (λ e, Literal sg ip (- e)) <$> read_exponent s2
      else None
  end.

(** Nearest integer to [a / b], for [0 < b], ties to the even neighbour. *)
Definition rne_div (a b : Z) : Z :=
  let q := a / b in
  let r := a mod b in
  match 2 * r ?= b with
  | Lt => q
  | Gt => q + 1
  | Eq => if Z.even q then q else q + 1
  end.

(** A binary64 value: [m * 2^e] with [|m| <= 2^53], an infinity, or not a
    number. *)
Inductive float64 :=
| Finite (m e : Z)
| Infinity (negative : bool)
| NaN.

(** The numerator and the denominator of the absolute value of a
    literal. *)
Definition numerator (l : literal) : Z :=
  if 0 <=? scale l then digits l else digits l * 10 ^ (- scale l).

Definition denominator (l : literal) : Z :=
  if 0 <=? scale l then 10 ^ scale l else 1.

Definition signed_numerator (l : literal) : Z :=
  if neg l then - numerator l else numerator l.

(** [p / (q * 2^e)] as a fraction of integers. *)
Definition scale2 (p q e : Z) : Z * Z :=
  if 0 <=? e then (p, q * 2 ^ e) else (p * 2 ^ (- e), q).

(** The exponent of the binade of [p / q] (for [0 < p], [0 < q]): the [e]
    with [2^52 <= p / (q * 2^e) < 2^53], not below the subnormal
    exponent [-1074]. *)
Definition binade (p q : Z) : Z :=
  let e0 := Z.log2 p - Z.log2 q - 52 in
  let '(n, d) := scale2 p q e0 in
  let e1 := if n <? d * 2 ^ 52 then e0 - 1 else e0 in
  Z.max e1 (-1074).

(** [float(s)] on a literal: the binary64 number nearest to the decimal
    value, ties to even (CPython's conversion is correctly rounded); an
    infinity when that number is past the largest binary64. *)
Definition to_float64 (l : literal) : float64 :=
  let p := numerator l in
  let q := denominator l in
  if p =? 0 then Finite 0 0
  else
    let e := binade p q in
    let '(n, d) := scale2 p q e in
    let m := rne_div n d in
    if (0 <=? e) && (2 ^ 1024 <=? m * 2 ^ e) then Infinity (neg l)
    else Finite (if neg l then - m else m) e.

Definition lower (c : ascii) : ascii :=
  if (65 <=? code c) && (code c <=? 90)
  then ascii_of_N (N_of_ascii c + 32) else c.

Fixpoint lowercase (s : string) : string :=
  match s with
  | EmptyString => EmptyString
  | String c r => String (lower c) (lowercase r)
  end.

(** The words [float()] reads besides the literals, in any case and with
    an optional sign. *)
Definition parse_word (s : string) : option float64 :=
  let '(sg, r) := read_sign s in
  let w := lowercase r in
  if decide (w = "inf" ∨ w = "infinity") then Some (Infinity sg)
  else if decide (w = "nan") then Some NaN
  else None.

(** [float(s)] for a text [s]; [None] when Python raises [ValueError]. *)
Definition python_float (s : string) : option float64 :=
  t ← remove_underscores s;
  let t := strip t in
  match parse_literal t with
  | Some l => Some (to_float64 l)
  | None => parse_word t
  end.

(** [.round(0)]: numpy rounds to the nearest integral float, ties to
    even.  The result of rounding a finite float is an integer, kept here
    as a [Z]. *)
Definition round0 (m e : Z) : Z :=
  if 0 <=? e then m * 2 ^ e else rne_div m (2 ^ (- e)).

(** [.astype(int)], to int64.  pandas raises when a value is not finite.
    A finite value is cast by numpy with the conversion of C; outside the
    int64 range that conversion gives the least int64 (the result of the
    x86-64 instruction), and nothing is raised. *)
Definition astype_int (f : float64) : option Z :=
  match f with
  | Finite m e =>
      let z := round0 m e in
      Some (if (- 2 ^ 63 <=? z) && (z <? 2 ^ 63) then z else - 2 ^ 63)
  | Infinity _ | NaN => None
  end.

(** Line 50 on one cell; [None] when it raises. *)
Definition clean_cost (s : string) : option Z :=
  python_float (remove_commas s) ≫= astype_int.

End Cost.


(** ** The table *)

(** One row of the DataFrame as it is given: the four columns the function
    uses.  A key cell is a text or is missing; the cost cell is its text. *)
Record RawRow := mkRawRow {
  csv_MeterCategory : option string;
  csv_PricingModel : option string;
  csv_Environment : option string;
  csv_MonthyCost : string
}.

(** One row after lines 50 and 53: integer cost, umbrella category merged. *)
Record Row := mkRow {
  MeterCategory : option string;
  PricingModel : option string;
  Environment : option string;
  MonthyCost : Z
}.

(** A pandas Series of int64 values indexed by labels. *)
Abbreviation Series := (list (string * Z)).

(** Two's complement wrap-around of int64 arithmetic. *)
Definition wrap64 (z : Z) : Z := (z + 2 ^ 63) mod 2 ^ 64 - 2 ^ 63.

(** The mathematical sum of the cost column of some rows. *)
Definition exact_sum (rows : list Row) : Z := foldr Z.add 0 (MonthyCost <$> rows).

(** [['Monthy Cost'].sum()] on int64: additions wrap, so the result is the
    exact sum reduced to 64 bits. *)
Definition column_sum (rows : list Row) : Z := wrap64 (exact_sum rows).

(** Line 53: [replace(['Azure Data Factory v2', 'Azure Synapse Analytics'], 'ETL Tools')].
    A missing cell stays missing. *)
Definition umbrella_members : list string :=
  ["Azure Data Factory v2"; "Azure Synapse Analytics"].

Definition merge_umbrella (c : string) : string :=
  if decide (c ∈ umbrella_members) then "ETL Tools" else c.

Definition clean_row (r : RawRow) : option Row :=
  cost ← Cost.clean_cost (csv_MonthyCost r);
  Some (mkRow (merge_umbrella <$> csv_MeterCategory r)
              (csv_PricingModel r) (csv_Environment r) cost).

(** Lines 50 and 53 on the whole table; [None] when a cost cell makes
    line 50 raise. *)
Definition clean_table (raw : list RawRow) : option (list Row) :=
  mapM clean_row raw.

(** ** pandas operations *)

(** The order of index labels after [groupby]: Python's string order. *)
Definition index_le (a b : string) : Prop := String.leb a b = true.

Global Instance index_le_dec : RelDecision index_le.
Proof. intros a b. unfold index_le. apply _. Defined.

(** The index of a [groupby] result: the distinct keys, sorted ascending. *)
Definition sorted_index (keys : list string) : list string :=
  merge_sort index_le (remove_dups keys).

(** The keys of the rows whose key cell is not missing. *)
Definition present_keys (key : Row → option string) (df : list Row) : list string :=
  omap key df.

(** [df.groupby(key)['Monthy Cost'].sum()].  With the default
    [dropna=True] the rows whose key is missing are in no group. *)
Definition groupby_sum (key : Row → option string) (df : list Row) : Series :=
  (λ k, (k, column_sum (filter (λ r, key r = Some k) df)))
    <$> sorted_index (present_keys key df).

(** [.unique().tolist()]: the distinct values in order of first
    appearance; the missing value is one of them when a cell is missing. *)
Fixpoint unique (l : list (option string)) : list (option string) :=
  match l with
  | [] => []
  | x :: l' => x :: filter (λ y, y ≠ x) (unique l')
  end.

(** [series[label]], and [label in series.index] as [is_Some]. *)
Fixpoint series_get (s : Series) (k : string) : option Z :=
  match s with
  | [] => None
  | (k', v) :: s' => if decide (k' = k) then Some v else series_get s' k
  end.

(** [Series.sort_values(ascending=False)] with the default [kind='quicksort'].
    pandas promises a rearrangement of the entries in descending order of
    value; the default kind is not stable, so the relative order of entries
    of equal value is whatever the installed numpy leaves.  The
    implementation is a parameter of the flow generation, with that
    contract. *)
Record SortImpl := {
  sort_values_desc : Series → Series;
  sort_values_perm : ∀ s, sort_values_desc s ≡ₚ s;
  sort_values_sorted : ∀ s, StronglySorted (λ a b : string * Z, b.2 ≤ a.2) (sort_values_desc s)
}.


(** [list(a_set)]: the elements in the iteration order of a Python set,
    which depends on the hash seed of the process.  The order is a
    parameter: any enumeration without repetition. *)
Record SetOrder := {
  set_to_list : gset (option string) → list (option string);
  set_to_list_perm : ∀ X, set_to_list X ≡ₚ elements X
}.

(** ** numpy's quicksort

    [sort_values] sorts through [nargsort], which for a descending order
    reverses the values, calls [argsort(kind='quicksort')] and reverses the
    result.  On int64 values numpy's portable [aquicksort] (file
    [npysort/quicksort.cpp]) sorts an array of positions: ranges of at most
    17 entries by insertion, longer ranges by partitioning around the median
    of three, with a heap sort once the depth limit is used up.  The array
    of positions is modelled by the array of the entries they point to. *)

Module Quicksort.

Definition SMALL_QUICKSORT : nat := 16.

Definition less (x y : string * Z) : bool := x.2 <? y.2.

Definition less_at (a : Series) (i j : nat) : bool :=
  match a !! i, a !! j with
  | Some x, Some y => less x y
  | _, _ => false
  end.

(** [INTP_SWAP]. *)
Definition swap (i j : nat) (a : Series) : Series :=
  match a !! i, a !! j with
  | Some x, Some y => <[i:=y]> (<[j:=x]> a)
  | _, _ => a
  end.



(** [do ++pi while (v[*pi] < vp)], from the slot [pi] already stepped to. *)
Fixpoint scan_up (fuel : nat) (a : Series) (vp : Z) (pi : nat) : nat :=
  match fuel with
  | O => pi
  | S f =>
      match a !! pi with
      | Some x => if x.2 <? vp then scan_up f a vp (S pi) else pi
      | None => pi
      end
  end.

(** [do --pj while (vp < v[*pj])], from the slot [pj] already stepped to. *)
Fixpoint scan_down (a : Series) (vp : Z) (pj : nat) : nat :=
  match a !! pj with
  | Some x =>
      if vp <? x.2
      then match pj with O => O | S j => scan_down a vp j end
      else pj
  | None => pj
  end.

(** The [for (;;)] loop of the partition; returns the array and [pi]. *)
Fixpoint partition_loop (fuel : nat) (a : Series) (vp : Z) (pi pj : nat)
    : Series * nat :=
  match fuel with
  | O => (a, pi)
  | S f =>
      let pi := scan_up (length a) a vp (S pi) in
      let pj := scan_down a vp (pj - 1) in
      if (pj <=? pi)%nat then (a, pi)
      else partition_loop f (swap pi pj a) vp pi pj
  end.

(** One partition of the range from [pl] to [pr]: median of three, the
    pivot parked at [pr - 1], the two scans, the pivot put in place. *)
Definition partition (a : Series) (pl pr : nat) : Series * nat :=
  let pm := (pl + (pr - pl) / 2)%nat in
  let a := if less_at a pm pl then swap pm pl a else a in
  let a := if less_at a pr pm then swap pr pm a else a in
  let a := if less_at a pm pl then swap pm pl a else a in
  match a !! pm with
  | Some vp =>
      let a := swap pm (pr - 1) a in
      let '(a, pi) := partition_loop (length a) a vp.2 pl (pr - 1) in
      (swap pi (pr - 1) a, pi)
  | None => (a, pl)
  end.





(** The inner [while ((pr - pl) > SMALL_QUICKSORT)]: partitions, pushes the
    larger side with the depth left, and goes on with the smaller. *)
Fixpoint split (fuel : nat) (a : Series) (pl pr : nat) (cdepth : Z)
    (stack : list (nat * nat * Z))
    : Series * nat * nat * list (nat * nat * Z) :=
  match fuel with
  | O => (a, pl, pr, stack)
  | S f =>
      if (SMALL_QUICKSORT <? pr - pl)%nat then
        let '(a, pi) := partition a pl pr in
        let cdepth := cdepth - 1 in
        if (pi - pl <? pr - pi)%nat
        then split f a pl (pi - 1) cdepth ((S pi, pr, cdepth) :: stack)
        else split f a (S pi) pr cdepth ((pl, (pi - 1)%nat, cdepth) :: stack)
      else (a, pl, pr, stack)
  end.



End Quicksort.


(** ** Label resolver: lines 12-19 *)

Definition HARDCODED_OVERWRITE_MAP : gmap string string :=
  {[ "Azure Database for PostgreSQL" := "PostgreSQL";
     "Azure Cognitive Search" := "Azure Search" ]}.

Definition get_label (name : string) (overwrite_map : gmap string string) : string :=
  default name (overwrite_map !! name).

(** [overwrite_map.update(external_map)] on a copy of the defaults: the
    external entries win. *)
Definition merge_overwrite_map (external_map : gmap string string) : gmap string string :=
  external_map ∪ HARDCODED_OVERWRITE_MAP.

(** ** [generate_sankey_data]: lines 42-129 *)

(** One emitted line, [source [cost] destination]. *)
Record FlowEdge := mkEdge { source : string; cost : Z; destination : string }.

Definition pricing_order : list string := ["SavingsPlan"; "Reservation"; "OnDemand"].

(** Line 88.  [in] finds the missing value in the list when it is there:
    the cell and the list entry are the same object. *)
Definition apply_grouping (categories_to_keep : list (option string))
    (category : option string) : option string :=
  if decide (category ∈ categories_to_keep) then category else Some "Others".

(** Line 90: the column [MeterCategory_Grouped], as a function of the row. *)
Definition MeterCategory_Grouped (categories_to_keep : list (option string))
    (r : Row) : option string :=
  apply_grouping categories_to_keep (MeterCategory r).

(** Line 58. *)
Definition grouped_by_cat (df : list Row) : Series := groupby_sum MeterCategory df.

(** Line 61.  A row with a missing pricing model is not a Reservation
    row; a Reservation row with a missing category puts the missing value
    in the list. *)
Definition reservation_cats (df : list Row) : list (option string) :=
  unique (MeterCategory <$> filter (λ r, PricingModel r = Some "Reservation") df).

(** Line 79, before the sort: [drop(labels=mandatory, errors='ignore')]. *)
Definition non_mandatory (df : list Row) : Series :=
  filter (λ p, Some p.1 ∉ reservation_cats df) (grouped_by_cat df).

Section Pipeline.
Context (S : SortImpl) (H : SetOrder).

(** Line 79: the categories outside the mandatory list, by descending cost. *)
Definition candidates (df : list Row) : Series :=
  sort_values_desc S (non_mandatory df).

(** Line 82.  [head(slots_remaining)] is only reached with a positive
    argument. *)
Definition fillers (df : list Row) (slots_remaining : Z) : list string :=
  (take (Z.to_nat slots_remaining) (candidates df)).*1.

(** Lines 63-83. *)
Definition categories_to_keep (df : list Row) (top_categories : Z)
    : list (option string) :=
  let total_unique_cats := Z.of_nat (length (grouped_by_cat df)) in
  if decide (total_unique_cats ≤ top_categories) then Some <$> (grouped_by_cat df).*1
  else
    let slots_for_specific := top_categories - 1 in
    let mandatory := reservation_cats df in
    if decide (slots_for_specific ≤ Z.of_nat (length mandatory)) then mandatory
    else
      let slots_remaining := slots_for_specific - Z.of_nat (length mandatory) in
      set_to_list H (list_to_set mandatory
                     ∪ list_to_set (Some <$> fillers df slots_remaining)).

(** Lines 94-95. *)
Definition category_sort_list (df : list Row) (keep : list (option string)) : Series :=
  sort_values_desc S (groupby_sum (MeterCategory_Grouped keep) df).

Definition environment_sort_list (df : list Row) : Series :=
  sort_values_desc S (groupby_sum Environment df).

(** Lines 103-111, one pricing model. *)
Definition flow1_model (df : list Row) (keep : list (option string))
    (overwrite_map : gmap string string) (model : string) : list FlowEdge :=
  let model_df := filter (λ r, PricingModel r = Some model) df in
  let model_cat_costs := groupby_sum (MeterCategory_Grouped keep) model_df in
  cat_name ← (category_sort_list df keep).*1;
  match series_get model_cat_costs cat_name with
  | Some cost =>
      if decide (0 < cost) then [mkEdge model cost (get_label cat_name overwrite_map)]
      else []
  | None => []
  end.

Definition flow1 (df : list Row) (keep : list (option string))
    (overwrite_map : gmap string string) : list FlowEdge :=
  model ← pricing_order; flow1_model df keep overwrite_map model.

(** Lines 116-118. *)
Definition flow2 (df : list Row) (keep : list (option string))
    (overwrite_map : gmap string string) : list FlowEdge :=
  (λ p, mkEdge (get_label p.1 overwrite_map) p.2 "TotalMonthly")
    <$> category_sort_list df keep.

(** Lines 123-127. *)
Definition flow3 (df : list Row) (overwrite_map : gmap string string) : list FlowEdge :=
  (λ p, mkEdge "TotalMonthly" p.2 (get_label p.1 overwrite_map))
    <$> environment_sort_list df.

(** The three blocks of edges for a cleaned table. *)
Definition block1 (df : list Row) (top_categories : Z) (m : gmap string string) :=
  flow1 df (categories_to_keep df top_categories) m.
Definition block2 (df : list Row) (top_categories : Z) (m : gmap string string) :=
  flow2 df (categories_to_keep df top_categories) m.
Definition block3 (df : list Row) (m : gmap string string) := flow3 df m.

(** The f-strings of lines 111, 118 and 127. *)
Definition render (e : FlowEdge) : string :=
  source e +:+ " [" +:+ pretty (cost e) +:+ "] " +:+ destination e.

Definition sankey_lines (df : list Row) (top_categories : Z)
    (overwrite_map : gmap string string) : list string :=
  (render <$> block1 df top_categories overwrite_map) ++ [""] ++
  (render <$> block2 df top_categories overwrite_map) ++ [""] ++
  (render <$> block3 df overwrite_map).

(** ["\n".join(lines)]. *)
Definition newline : string := String "010" EmptyString.

Fixpoint join_lines (lines : list string) : string :=
  match lines with
  | [] => ""
  | [l] => l
  | l :: rest => l +:+ newline +:+ join_lines rest
  end.

(** The three blocks for a table as given; [None] when line 50 raises. *)
Definition sankey_blocks (raw : list RawRow) (top_categories : Z)
    (overwrite_map : gmap string string)
    : option (list FlowEdge * list FlowEdge * list FlowEdge) :=
  df ← clean_table raw;
  Some (block1 df top_categories overwrite_map,
        block2 df top_categories overwrite_map,
        block3 df overwrite_map).

(** The whole function, on a DataFrame that has the four columns; [None]
    when it raises, which only line 50 can do. *)
Definition generate_sankey_data (raw : list RawRow) (top_categories : Z)
    (overwrite_map : gmap string string) : option string :=
  df ← clean_table raw;
  Some (join_lines (sankey_lines df top_categories overwrite_map)).

End Pipeline.

(** ** The table after a call

    [generate_sankey_data] rewrites the DataFrame it is given (lines 50, 53
    and 90 assign columns of [df]).  A second call on the same object reads
    the cost column as int64 values, which line 50 turns into strings again
    with [astype(str)]; the categories are the merged ones.  The column
    [MeterCategory_Grouped] added by line 90 is not read. *)
Definition as_left_by_a_call (df : list Row) : list RawRow :=
  (λ r, mkRawRow (MeterCategory r) (PricingModel r) (Environment r)
                 (pretty (MonthyCost r))) <$> df.


(** ** Python string operations used by [main] *)

(** [s.find(old)]: the index of the first occurrence, [None] for Python's
    [-1].  [old in s] holds exactly when there is one. *)
Fixpoint str_find (old s : string) : option nat :=
  if String.prefix old s then Some 0%nat
  else match s with
       | EmptyString => None
       | String _ r => S <$> str_find old r
       end.

Definition str_contains (old s : string) : bool :=
  bool_decide (is_Some (str_find old s)).

(** [s.replace(old, new)] for a non-empty [old]: the occurrences are taken
    from left to right and do not overlap.  [skip] counts the characters
    of an occurrence still to pass over. *)
Fixpoint replace_go (old new : string) (skip : nat) (s : string) : string :=
  match s with
  | EmptyString => EmptyString
  | String c r =>
      match skip with
      | S k => replace_go old new k r
      | O =>
          if String.prefix old s
          then new +:+ replace_go old new (String.length old - 1) r
          else String c (replace_go old new 0 r)
      end
  end.

(** [s.replace("", new)]: [new] goes in front of every character and at the
    end. *)
Fixpoint replace_empty (new s : string) : string :=
  match s with
  | EmptyString => new
  | String c r => new +:+ String c (replace_empty new r)
  end.

Definition str_replace (old new s : string) : string :=
  if decide (old = "") then replace_empty new s else replace_go old new 0 s.

(** ** [load_overwrite_map] and [main]: lines 21-40 and 131-221

    What a run finds outside the program is gathered in a [World]; what it
    leaves behind is an [Outcome].  Messages printed on the standard output
    are kept as their text.  Messages on the standard error carry the text
    of an exception in three places, so they are kept as tags. *)

(** [args], as [parse_args] returns it. *)
Record Args := mkArgs {
  csvFile : string;
  TopCategories : Z;
  OverwriteJsonFile : option string;
  Formatted : bool;
  Screen : bool
}.

(** [pd.read_csv(args.csvFile)]: an exception, a DataFrame that lacks one
    of the four columns, or a table with the four of them. *)
Inductive CsvRead :=
| CsvFails
| CsvLacksColumn
| CsvTable (table : list RawRow).

(** Lines 28-33.  [JsonLoaded external_map]: the file holds a JSON object
    from strings to strings and [update] merges it.  [JsonFails merged]:
    an exception is raised, by [open], by [json.load] or by [update];
    [update] can raise after it has merged some entries (a JSON array whose
    first elements are pairs), and [merged] holds those. *)
Inductive JsonLoad :=
| JsonLoaded (external_map : gmap string string)
| JsonFails (merged : gmap string string).

(** Lines 198-199: an exception, or the text of the template. *)
Inductive TemplateRead :=
| TemplateFails
| TemplateText (template_content : string).

Record World := mkWorld {
  path_exists : string → bool;
  read_csv : CsvRead;
  json_load : JsonLoad;
  template_read : TemplateRead;
  write_succeeds : bool;
  timestamp : string;
  file_timestamp : string
}.

Inductive Diagnostic :=
| InputNotFound (path : string)
| CsvReadError
| JsonParseWarning
| JsonNotFound (path : string)
| MarkerMissing
| TemplateError
| TemplateNotFound.

Inductive Event :=
| Stdout (text : string)
| Stderr (msg : Diagnostic).

(** The formatted file: none, written, or a write that raised (lines
    213-214), which may leave a file of that name behind. *)
Inductive FileState :=
| NoFile
| FileWritten (output_filename final_content : string)
| FileAttempted (output_filename : string).

(** [Returns]: [main] returns, having printed [events] in that order.
    [Stops]: [generate_sankey_data] raises, because a column is not there
    ([KeyError]) or because line 50 raises; nothing in [main] catches it,
    and [events] holds what was printed before line 182. *)
Inductive Outcome :=
| Returns (events : list Event) (file : FileState)
| Stops (events : list Event).

(** Lines 21-40.  [if json_file_path:] is false for [None] and for the
    empty string. *)
Definition load_overwrite_map (json_file_path : option string) (w : World)
    : gmap string string * list Event :=
  match json_file_path with
  | None => (HARDCODED_OVERWRITE_MAP, [])
  | Some path =>
      if decide (path = "") then (HARDCODED_OVERWRITE_MAP, [])
      else if path_exists w path then
        match json_load w with
        | JsonLoaded external_map =>
            (merge_overwrite_map external_map,
             [Stdout ("Loaded overwrite map from '" +:+ path +:+ "'")])
        | JsonFails merged =>
            (merge_overwrite_map merged, [Stderr JsonParseWarning])
        end
      else (HARDCODED_OVERWRITE_MAP, [Stderr (JsonNotFound path)])
  end.

Definition template_file : string := "sankeymatic_template.txt".
Definition marker : string := "// === Nodes and Flows ===".
Definition timestamp_placeholder : string := "%GENERATED DATETIME%".

(** Lines 206-211, on the text of the template: the content to write, or
    [None] when the marker is missing. *)
Definition splice_template (template_content timestamp sankey_output : string)
    : option string :=
  let template_content := str_replace timestamp_placeholder timestamp template_content in
  if str_contains marker template_content then
    let replacement := marker +:+ newline +:+ sankey_output in
    Some (str_replace marker replacement template_content)
  else None.

(** Lines 191-221. *)
Definition formatted_output (w : World) (sankey_output : string)
    : list Event * FileState :=
  if path_exists w template_file then
    match template_read w with
    | TemplateFails => ([Stderr TemplateError], NoFile)
    | TemplateText template_content =>
        let output_filename := "sankeymatic_" +:+ file_timestamp w +:+ ".txt" in
        match splice_template template_content (timestamp w) sankey_output with
        | Some final_content =>
            if write_succeeds w then
              ([Stdout ("Successfully created formatted file: " +:+ output_filename)],
               FileWritten output_filename final_content)
            else ([Stderr TemplateError], FileAttempted output_filename)
        | None => ([Stderr MarkerMissing], NoFile)
        end
    end
  else ([Stderr TemplateNotFound], NoFile).

Section Main.
Context (S : SortImpl) (H : SetOrder).

(** Lines 167-221, after [parse_args]. *)
Definition main (args : Args) (w : World) : Outcome :=
  if negb (path_exists w (csvFile args)) then
    Returns [Stderr (InputNotFound (csvFile args))] NoFile
  else
    match read_csv w with
    | CsvFails => Returns [Stderr CsvReadError] NoFile
    | CsvLacksColumn => Stops (load_overwrite_map (OverwriteJsonFile args) w).2
    | CsvTable df =>
        let '(overwrite_map, loading) := load_overwrite_map (OverwriteJsonFile args) w in
        match generate_sankey_data S H df (TopCategories args) overwrite_map with
        | None => Stops loading
        | Some sankey_output =>
            let screen := if Screen args then [Stdout sankey_output] else [] in
            let '(formatting, written) :=
              if Formatted args then formatted_output w sankey_output
              else ([], NoFile) in
            Returns (loading ++ screen ++ formatting) written
        end
    end.

End Main.

(** ** Quantities and orders the properties are stated with *)

Definition Zsum (l : list Z) : Z := foldr Z.add 0 l.

(** The total carried by a list of edges, and the total of the values of a
    Series, as mathematical integers. *)
Definition edges_total (es : list FlowEdge) : Z := Zsum (cost <$> es).
Definition series_total (s : Series) : Z := Zsum s.*2.

(** The grand total of the normalized costs of a table. *)
Definition grand_total (df : list Row) : Z := exact_sum df.

(** The sum of the absolute values of the costs: when it is below [2^63] no
    partial sum of the column can overflow. *)
Definition abs_sum (rows : list Row) : Z := Zsum (Z.abs ∘ MonthyCost <$> rows).

(** [z] is an integer nearest to [num / den] (for [0 < den]), and the even
    one of the two when [num / den] lies halfway between two integers. *)
Definition nearest_ties_even (num den z : Z) : Prop :=
  Z.abs (2 * (num - z * den)) ≤ den
  ∧ (Z.abs (2 * (num - z * den)) = den → Z.even z = true).



(** The text [s] of a cost cell reads as the decimal literal [l]: with
    the commas removed, the underscores accepted and the blanks at both ends
    stripped. *)
Definition reads_as (s : string) (l : Cost.literal) : Prop :=
  ∃ t, Cost.remove_underscores (Cost.remove_commas s) = Some t
       ∧ Cost.parse_literal (Cost.strip t) = Some l.

(** Every character of a text passes a test. *)
Fixpoint all_chars (P : ascii → bool) (s : string) : bool :=
  match s with
  | EmptyString => true
  | String c r => P c && all_chars P r
  end.

(** A character that is neither an underscore nor a blank. *)
Definition plain_char (c : ascii) : bool :=
  negb (Ascii.eqb c "_") && negb (Cost.is_space c).

(** Strictly before, in the order of index labels. *)
Definition index_lt (a b : string) : Prop := String.ltb a b = true.

(** A Series in descending order of value. *)
Definition descending (s : Series) : Prop :=
  StronglySorted (λ a b : string * Z, b.2 ≤ a.2) s.


(** An edge with one of its two nodes renamed through the map. *)
Definition relabel_source (m : gmap string string) (e : FlowEdge) : FlowEdge :=
  mkEdge (get_label (source e) m) (cost e) (destination e).

Definition relabel_destination (m : gmap string string) (e : FlowEdge) : FlowEdge :=
  mkEdge (source e) (cost e) (get_label (destination e) m).

(** The entries that [load_overwrite_map] takes from the file: none unless
    a non-empty path is given and exists. *)
Definition file_entries (json_file_path : option string) (w : World)
    : gmap string string :=
  match json_file_path with
  | Some path =>
      if decide (path = "") then ∅
      else if path_exists w path then
        match json_load w with
        | JsonLoaded external_map => external_map
        | JsonFails merged => merged
        end
      else ∅
  | None => ∅
  end.

(** ** Sorting by insertion

    [stable_sort] is what pandas does when the sort kind is stable: it
    reverses the values, sorts them ascending, and reverses the result, so
    equal values keep their input order. *)

(** Insertion in front of the first entry that is not smaller. *)
Fixpoint insert_asc (x : string * Z) (s : Series) : Series :=
  match s with
  | [] => [x]
  | y :: s' => if decide (x.2 ≤ y.2) then x :: y :: s' else y :: insert_asc x s'
  end.

(** A stable ascending sort by value. *)
Definition sort_asc (s : Series) : Series := foldr insert_asc [] s.

(** Insertion behind the last entry that is not larger, looked for from
    the end: what the inner loop of numpy's insertion sort does to the
    sorted part of the array. *)
Fixpoint insert_from_end (x : string * Z) (rev_sorted : Series) : Series :=
  match rev_sorted with
  | [] => [x]
  | y :: s' =>
      if Quicksort.less x y then y :: insert_from_end x s' else x :: y :: s'
  end.

Definition insert_last (x : string * Z) (sorted : Series) : Series :=
  reverse (insert_from_end x (reverse sorted)).

(** The insertion sort of numpy, entry by entry from the left. *)
Definition sort_by_insertion (s : Series) : Series :=
  foldl (λ sorted x, insert_last x sorted) [] s.

(** ** Tables used in the examples below *)

(** A row of four texts. *)
Definition raw_row (category pricing environment cost : string) : RawRow :=
  mkRawRow (Some category) (Some pricing) (Some environment) cost.

Definition row (category pricing environment : string) (cost : Z) : Row :=
  mkRow (Some category) (Some pricing) (Some environment) cost.

(** A small export: two rows fall under the umbrella category, one of them
    Reservation-priced. *)
Definition demo_table : list RawRow := [
  raw_row "Virtual Machines" "OnDemand" "Prod" "1,500.4";
  raw_row "Storage" "OnDemand" "Prod" "300";
  raw_row "Azure Synapse Analytics" "Reservation" "Dev" "250.5";
  raw_row "Azure Data Factory v2" "OnDemand" "Dev" "49.5";
  raw_row "SQL Database" "SavingsPlan" "Prod" "900";
  raw_row "Bandwidth" "OnDemand" "Test" "12"
].

Definition demo_df : list Row := [
  row "Virtual Machines" "OnDemand" "Prod" 1500;
  row "Storage" "OnDemand" "Prod" 300;
  row "ETL Tools" "Reservation" "Dev" 250;
  row "ETL Tools" "OnDemand" "Dev" 50;
  row "SQL Database" "SavingsPlan" "Prod" 900;
  row "Bandwidth" "OnDemand" "Test" 12
].

(** One record priced 'Spot', a pricing model of Azure exports that is not
    in [pricing_order]. *)
Definition spot_table : list RawRow := [
  raw_row "Virtual Machines" "Spot" "Prod" "10"
].

Definition spot_df : list Row := [row "Virtual Machines" "Spot" "Prod" 10].

(** Two records, the second with no environment. *)
Definition no_environment_table : list RawRow := [
  raw_row "Virtual Machines" "OnDemand" "Prod" "10";
  mkRawRow (Some "Storage") (Some "OnDemand") None "5"
].

Definition no_environment_df : list Row := [
  row "Virtual Machines" "OnDemand" "Prod" 10;
  mkRow (Some "Storage") (Some "OnDemand") None 5
].

(** Two records, the second with no category. *)
Definition no_category_table : list RawRow := [
  raw_row "Virtual Machines" "OnDemand" "Prod" "10";
  mkRawRow None (Some "OnDemand") (Some "Prod") "5"
].

Definition no_category_df : list Row := [
  row "Virtual Machines" "OnDemand" "Prod" 10;
  mkRow None (Some "OnDemand") (Some "Prod") 5
].

(** Three categories, each with a reservation. *)
Definition reserved_table : list RawRow := [
  raw_row "Virtual Machines" "Reservation" "Prod" "500";
  raw_row "SQL Database" "Reservation" "Prod" "300";
  raw_row "Storage" "Reservation" "Dev" "100"
].

Definition reserved_df : list Row := [
  row "Virtual Machines" "Reservation" "Prod" 500;
  row "SQL Database" "Reservation" "Prod" 300;
  row "Storage" "Reservation" "Dev" 100
].

(** A reserved category that the built-in map renames. *)
Definition postgres_table : list RawRow := [
  raw_row "Azure Database for PostgreSQL" "Reservation" "Prod" "700";
  raw_row "Storage" "OnDemand" "Prod" "40"
].

Definition postgres_df : list Row := [
  row "Azure Database for PostgreSQL" "Reservation" "Prod" 700;
  row "Storage" "OnDemand" "Prod" 40
].

(** A table whose one category is itself called 'Others'. *)
Definition others_table : list RawRow := [
  raw_row "Others" "OnDemand" "Prod" "10"
].

Definition others_df : list Row := [row "Others" "OnDemand" "Prod" 10].

(** Three categories of equal cost. *)
Definition ties_table : list RawRow := [
  raw_row "Bandwidth" "OnDemand" "Prod" "5";
  raw_row "Storage" "OnDemand" "Dev" "5";
  raw_row "Virtual Machines" "OnDemand" "Prod" "5"
].





(** A category whose only record rounds to a cost of zero. *)
Definition zero_table : list RawRow := [
  raw_row "Virtual Machines" "OnDemand" "Prod" "120";
  raw_row "Storage" "OnDemand" "Dev" "0.3"
].

Definition zero_df : list Row := [
  row "Virtual Machines" "OnDemand" "Prod" 120;
  row "Storage" "OnDemand" "Dev" 0
].

(** A template, and a run that finds everything it needs. *)
Definition demo_template : string :=
  "// generated %GENERATED DATETIME%" +:+ newline +:+ marker +:+ newline +:+ "size w 800".

Definition demo_world : World :=
  mkWorld (λ _, true) (CsvTable demo_table) (JsonLoaded ∅)
          (TemplateText demo_template) true "2026-01-02 03:04:05" "20260102-030405".

Definition demo_args : Args := mkArgs "costs.csv" 4 None true true.

Definition quiet_args : Args := mkArgs "costs.csv" 4 None false false.

(** * Properties *)

(** ** The stable sort and the set orders meet their contracts *)

Lemma insert_asc_perm x s : insert_asc x s ≡ₚ x :: s.
Proof.
  induction s as [|y s IH]; simpl; [done|].
  case_decide; [done|]. rewrite IH. apply Permutation_swap.
Qed.

Lemma sort_asc_perm s : sort_asc s ≡ₚ s.
Proof.
  induction s as [|x s IH]; simpl; [done|].
  rewrite insert_asc_perm. by rewrite IH.
Qed.

Lemma insert_asc_sorted x s :
  StronglySorted (λ a b : string * Z, a.2 ≤ b.2) s →
  StronglySorted (λ a b : string * Z, a.2 ≤ b.2) (insert_asc x s).
Proof.
  induction 1 as [|y s Hs IH Hy]; simpl.
  - repeat constructor.
  - case_decide as Hxy.
    + constructor; [by constructor|].
      constructor; [done|]. eapply Forall_impl; [exact Hy|]. simpl. lia.
    + constructor; [done|].
      rewrite insert_asc_perm. constructor; [lia|done].
Qed.

Lemma sort_asc_sorted s : StronglySorted (λ a b : string * Z, a.2 ≤ b.2) (sort_asc s).
Proof.
  induction s as [|x s IH]; simpl; [constructor|]. by apply insert_asc_sorted.
Qed.

Lemma StronglySorted_reverse {A} (R : relation A) (l : list A) :
  StronglySorted R l → StronglySorted (flip R) (reverse l).
Proof.
  induction 1 as [|x l Hl IH Hx]; [constructor|].
  rewrite reverse_cons. apply StronglySorted_app. split_and!.
  - intros a b Ha Hb. apply list_elem_of_singleton in Hb as ->.
    rewrite elem_of_reverse in Ha. rewrite Forall_forall in Hx.
    unfold flip. by apply Hx.
  - done.
  - repeat constructor.
Qed.

Lemma reverse_sort_asc_sorted s :
  StronglySorted (λ a b : string * Z, b.2 ≤ a.2) (reverse (sort_asc s)).
Proof. apply (StronglySorted_reverse _ _ (sort_asc_sorted s)). Qed.

Lemma stable_sort_perm s : reverse (sort_asc (reverse s)) ≡ₚ s.
Proof. by rewrite reverse_Permutation, sort_asc_perm, reverse_Permutation. Qed.

Definition stable_sort : SortImpl := {|
  sort_values_desc s := reverse (sort_asc (reverse s));
  sort_values_perm := stable_sort_perm;
  sort_values_sorted s := reverse_sort_asc_sorted (reverse s)
|}.

(** The set enumerated in the order of stdpp's [elements]. *)
Definition elements_order : SetOrder := {|
  set_to_list := elements;
  set_to_list_perm X := reflexivity (elements X)
|}.

(** The same set enumerated backwards. *)
Definition reversed_order : SetOrder := {|
  set_to_list X := reverse (elements X);
  set_to_list_perm X := reverse_Permutation (elements X)
|}.

(** ** Sums *)

Lemma Zsum_cons x l : Zsum (x :: l) = x + Zsum l.
Proof. done. Qed.

Lemma Zsum_app l1 l2 : Zsum (l1 ++ l2) = Zsum l1 + Zsum l2.
Proof.
  induction l1 as [|x l1 IH]; [done|].
  rewrite <- app_comm_cons, !Zsum_cons, IH. lia.
Qed.

Global Instance Zsum_perm : Proper ((≡ₚ) ==> (=)) Zsum.
Proof.
  intros l1 l2 Hp. unfold Zsum.
  induction Hp as [|x l l' _ IH|x y l|l l' l'' _ IH1 _ IH2]; simpl.
  - done.
  - by rewrite IH.
  - lia.
  - by rewrite IH1.
Qed.

Lemma Zsum_fmap_add {A} (f g : A → Z) (l : list A) :
  Zsum ((λ x, f x + g x) <$> l) = Zsum (f <$> l) + Zsum (g <$> l).
Proof.
  induction l as [|x l IH]; [done|].
  rewrite !fmap_cons, !Zsum_cons, IH. lia.
Qed.

Lemma Zsum_fmap_ext {A} (f g : A → Z) (l : list A) :
  (∀ x, x ∈ l → f x = g x) → Zsum (f <$> l) = Zsum (g <$> l).
Proof.
  intros Hfg. f_equal. apply list_fmap_ext. intros i x Hx.
  apply Hfg. by eapply list_elem_of_lookup_2.
Qed.

Lemma Zsum_indicator (o : option string) (c : Z) (ks : list string) :
  NoDup ks →
  Zsum ((λ k, if decide (o = Some k) then c else 0) <$> ks)
  = if decide (o ∈ Some <$> ks) then c else 0.
Proof.
  induction 1 as [|k ks Hk Hks IH]; [done|].
  rewrite !fmap_cons, Zsum_cons, IH.
  destruct (decide (o = Some k)) as [->|Hne].
  - rewrite decide_False by (by rewrite (list_elem_of_fmap_inj Some)).
    rewrite decide_True by left. lia.
  - destruct (decide (o ∈ Some <$> ks)) as [Hin|Hin].
    + rewrite decide_True by (by right). lia.
    + rewrite decide_False; [lia|]. by intros [?|?]%elem_of_cons.
Qed.

Lemma exact_sum_cons r rows : exact_sum (r :: rows) = MonthyCost r + exact_sum rows.
Proof. done. Qed.

Lemma exact_sum_app r1 r2 : exact_sum (r1 ++ r2) = exact_sum r1 + exact_sum r2.
Proof. unfold exact_sum. rewrite fmap_app. apply Zsum_app. Qed.

(** Grouping neither drops nor repeats a row whose key is there: over any
    list of distinct keys that covers the rows, the group sums add up to the
    sum of the rows. *)
Lemma exact_sum_partition (key : Row → option string) (ks : list string)
    (rows : list Row) :
  NoDup ks → (∀ r, r ∈ rows → key r ∈ Some <$> ks) →
  Zsum ((λ k, exact_sum (filter (λ r, key r = Some k) rows)) <$> ks) = exact_sum rows.
Proof.
  intros Hks. induction rows as [|r rows IH]; intros Hcov.
  - clear. induction ks as [|k ks IHk]; [done|].
    by rewrite fmap_cons, Zsum_cons, IHk.
  - rewrite exact_sum_cons, <- IH by (intros; apply Hcov; by right).
    rewrite <- (Zsum_fmap_ext
      (λ k, (if decide (key r = Some k) then MonthyCost r else 0)
            + exact_sum (filter (λ r, key r = Some k) rows))).
    + rewrite Zsum_fmap_add, Zsum_indicator by done.
      rewrite decide_True; [done|]. apply Hcov. by left.
    + intros k _. rewrite filter_cons. by case_decide.
Qed.

Lemma abs_sum_cons r rows : abs_sum (r :: rows) = Z.abs (MonthyCost r) + abs_sum rows.
Proof. done. Qed.

Lemma abs_sum_nonneg rows : 0 ≤ abs_sum rows.
Proof. induction rows as [|r rows IH]; [done|]. rewrite abs_sum_cons. lia. Qed.

Lemma exact_sum_filter_bound (P : Row → Prop) `{!∀ r, Decision (P r)} rows :
  Z.abs (exact_sum (filter P rows)) ≤ abs_sum rows.
Proof.
  induction rows as [|r rows IH]; [done|].
  rewrite filter_cons, abs_sum_cons. case_decide; rewrite ?exact_sum_cons; lia.
Qed.

Lemma wrap64_small z : - 2 ^ 63 ≤ z < 2 ^ 63 → wrap64 z = z.
Proof. intros Hz. unfold wrap64. rewrite Z.mod_small; lia. Qed.

Lemma wrap64_range z : - 2 ^ 63 ≤ wrap64 z < 2 ^ 63.
Proof. unfold wrap64. pose proof (Z.mod_pos_bound (z + 2 ^ 63) (2 ^ 64)). lia. Qed.

(** Without overflow a column sum is the exact sum. *)
Lemma column_sum_filter_exact (P : Row → Prop) `{!∀ r, Decision (P r)} rows :
  abs_sum rows < 2 ^ 63 → column_sum (filter P rows) = exact_sum (filter P rows).
Proof.
  intros Hb. unfold column_sum. apply wrap64_small.
  pose proof (exact_sum_filter_bound P rows). lia.
Qed.

(** ** Facts about [groupby] and Series *)

Lemma elem_of_sorted_index k keys : k ∈ sorted_index keys ↔ k ∈ keys.
Proof.
  unfold sorted_index. rewrite merge_sort_Permutation. apply elem_of_remove_dups.
Qed.

Lemma NoDup_sorted_index keys : NoDup (sorted_index keys).
Proof.
  unfold sorted_index. rewrite merge_sort_Permutation. apply NoDup_remove_dups.
Qed.

Lemma elem_of_present_keys key df k :
  k ∈ present_keys key df ↔ ∃ r, r ∈ df ∧ key r = Some k.
Proof. apply list_elem_of_omap. Qed.

Lemma groupby_sum_index key df :
  (groupby_sum key df).*1 = sorted_index (present_keys key df).
Proof.
  unfold groupby_sum. rewrite <- list_fmap_compose. apply list_fmap_id.
Qed.

Lemma groupby_sum_values key df :
  (groupby_sum key df).*2
  = (λ k, column_sum (filter (λ r, key r = Some k) df))
      <$> sorted_index (present_keys key df).
Proof. unfold groupby_sum. by rewrite <- list_fmap_compose. Qed.

Lemma elem_of_groupby_index key df k :
  k ∈ (groupby_sum key df).*1 ↔ ∃ r, r ∈ df ∧ key r = Some k.
Proof.
  by rewrite groupby_sum_index, elem_of_sorted_index, elem_of_present_keys.
Qed.

Lemma NoDup_groupby_index key df : NoDup (groupby_sum key df).*1.
Proof. rewrite groupby_sum_index. apply NoDup_sorted_index. Qed.

Lemma series_get_tabulate (f : string → Z) (ks : list string) (k : string) :
  series_get ((λ k, (k, f k)) <$> ks) k = if decide (k ∈ ks) then Some (f k) else None.
Proof.
  induction ks as [|k' ks IH]; [done|].
  rewrite fmap_cons. simpl. destruct (decide (k' = k)) as [->|Hne].
  - by rewrite decide_True by left.
  - rewrite IH. destruct (decide (k ∈ ks)).
    + by rewrite decide_True by (by right).
    + rewrite decide_False; [done|]. intros [?|?]%elem_of_cons; by subst.
Qed.

Lemma series_get_groupby key df k :
  series_get (groupby_sum key df) k
  = if decide (k ∈ present_keys key df)
    then Some (column_sum (filter (λ r, key r = Some k) df))
    else None.
Proof.
  unfold groupby_sum. rewrite series_get_tabulate.
  destruct (decide (k ∈ present_keys key df)) as [Hin|Hin].
  - by rewrite decide_True by (by apply elem_of_sorted_index).
  - rewrite decide_False; [done|]. by rewrite elem_of_sorted_index.
Qed.

Lemma abs_sum_filter_le (P : Row → Prop) `{!∀ r, Decision (P r)} rows :
  abs_sum (filter P rows) ≤ abs_sum rows.
Proof.
  induction rows as [|r rows IH]; [done|].
  rewrite filter_cons, abs_sum_cons. case_decide; rewrite ?abs_sum_cons; lia.
Qed.

(** Without overflow, and when no row lacks its key, the values of a
    [groupby] sum add up to the sum of the column. *)
Lemma groupby_sum_total key df :
  abs_sum df < 2 ^ 63 → (∀ r, r ∈ df → is_Some (key r)) →
  series_total (groupby_sum key df) = exact_sum df.
Proof.
  intros Hb Hkeys. unfold series_total. rewrite groupby_sum_values.
  rewrite (Zsum_fmap_ext _ (λ k, exact_sum (filter (λ r, key r = Some k) df))).
  - apply exact_sum_partition; [apply NoDup_sorted_index|].
    intros r Hr. destruct (Hkeys r Hr) as [k Hk]. rewrite Hk.
    apply list_elem_of_fmap_2, elem_of_sorted_index, elem_of_present_keys. eauto.
  - intros k _. by apply column_sum_filter_exact.
Qed.

(** In general the values of a [groupby] sum add up to the sum over the
    rows that have their key. *)
Lemma groupby_sum_total_present key df :
  abs_sum df < 2 ^ 63 →
  series_total (groupby_sum key df) = exact_sum (filter (λ r, is_Some (key r)) df).
Proof.
  intros Hb. unfold series_total. rewrite groupby_sum_values.
  rewrite (Zsum_fmap_ext _
    (λ k, exact_sum (filter (λ r, key r = Some k) (filter (λ r, is_Some (key r)) df)))).
  - apply exact_sum_partition; [apply NoDup_sorted_index|].
    intros r [[k Hk] Hr]%list_elem_of_filter. rewrite Hk.
    apply list_elem_of_fmap_2, elem_of_sorted_index, elem_of_present_keys. eauto.
  - intros k _. rewrite column_sum_filter_exact by done. f_equal.
    rewrite list_filter_filter. apply list_filter_iff. intros r. split.
    + intros Hk. split; [done|]. by rewrite Hk.
    + by intros [? _].
Qed.

Lemma series_total_sorted (S : SortImpl) s :
  series_total (sort_values_desc S s) = series_total s.
Proof. unfold series_total. by rewrite (sort_values_perm S s). Qed.

Lemma edges_total_app es1 es2 :
  edges_total (es1 ++ es2) = edges_total es1 + edges_total es2.
Proof. unfold edges_total. rewrite fmap_app. apply Zsum_app. Qed.

Lemma edges_total_bind {A} (f : A → list FlowEdge) (l : list A) :
  edges_total (l ≫= f) = Zsum ((λ x, edges_total (f x)) <$> l).
Proof.
  induction l as [|x l IH]; [done|].
  rewrite bind_cons, edges_total_app, fmap_cons, Zsum_cons. by rewrite IH.
Qed.

Lemma flow2_total S df keep m :
  edges_total (flow2 S df keep m) = series_total (groupby_sum (MeterCategory_Grouped keep) df).
Proof.
  unfold flow2, edges_total, category_sort_list.
  rewrite <- list_fmap_compose. rewrite <- (series_total_sorted S). done.
Qed.

Lemma flow3_total S df m :
  edges_total (flow3 S df m) = series_total (groupby_sum Environment df).
Proof.
  unfold flow3, edges_total, environment_sort_list.
  rewrite <- list_fmap_compose. rewrite <- (series_total_sorted S). done.
Qed.

(** Every line of the first block carries a positive cost (line 108). *)
Lemma flow1_positive S df keep m e : e ∈ flow1 S df keep m → 0 < cost e.
Proof.
  unfold flow1, flow1_model. intros (model & He & _)%list_elem_of_bind.
  apply list_elem_of_bind in He as (cat & He & _).
  destruct (series_get _ cat) as [c|]; [|by apply elem_of_nil in He].
  case_decide; [|by apply elem_of_nil in He].
  by apply list_elem_of_singleton in He as ->.
Qed.

Lemma apply_grouping_kept keep c : c ∈ keep → apply_grouping keep c = c.
Proof. intros Hc. unfold apply_grouping. by rewrite decide_True. Qed.

Lemma apply_grouping_folded keep c : c ∉ keep → apply_grouping keep c = Some "Others".
Proof. intros Hc. unfold apply_grouping. by rewrite decide_False. Qed.

(** A category that is there is grouped under a name. *)
Lemma apply_grouping_present keep c : is_Some c → is_Some (apply_grouping keep c).
Proof. intros Hc. unfold apply_grouping. by case_decide. Qed.

(** What one pricing model contributes to the first block, when every
    record has a category, none of the per-category sums of the model is
    negative and nothing overflows. *)
Lemma flow1_model_total S df keep m model :
  abs_sum df < 2 ^ 63 →
  (∀ r, r ∈ df → is_Some (MeterCategory r)) →
  (∀ cat, 0 ≤ exact_sum (filter (λ r, MeterCategory_Grouped keep r = Some cat)
                           (filter (λ r, PricingModel r = Some model) df))) →
  edges_total (flow1_model S df keep m model)
  = exact_sum (filter (λ r, PricingModel r = Some model) df).
Proof.
  intros Hb Hcat Hpos. unfold flow1_model. rewrite edges_total_bind.
  pose proof (abs_sum_filter_le (λ r, PricingModel r = Some model) df) as Hle.
  set (model_df := filter (λ r, PricingModel r = Some model) df) in *.
  set (grp := MeterCategory_Grouped keep) in *.
  assert (Hbm : abs_sum model_df < 2 ^ 63) by lia.
  rewrite (Zsum_fmap_ext _ (λ k, exact_sum (filter (λ r, grp r = Some k) model_df))).
  - apply exact_sum_partition.
    + unfold category_sort_list. rewrite (sort_values_perm S).
      apply NoDup_groupby_index.
    + intros r [_ Hr]%list_elem_of_filter.
      destruct (apply_grouping_present keep _ (Hcat r Hr)) as [k Hk].
      fold (MeterCategory_Grouped keep r) in Hk. fold grp in Hk. rewrite Hk.
      apply list_elem_of_fmap_2.
      unfold category_sort_list. rewrite (sort_values_perm S).
      apply elem_of_groupby_index. by exists r.
  - intros cat _. rewrite series_get_groupby.
    destruct (decide (cat ∈ present_keys grp model_df)) as [Hin|Hin].
    + rewrite column_sum_filter_exact by done.
      specialize (Hpos cat). case_decide.
      * unfold edges_total. rewrite fmap_cons, Zsum_cons. simpl. unfold Zsum. simpl. lia.
      * unfold edges_total, Zsum. simpl. lia.
    + rewrite (elem_of_nil_inv (filter (λ r, grp r = Some cat) model_df)); [done|].
      intros r [Heq Hr]%list_elem_of_filter. apply Hin.
      apply elem_of_present_keys. eauto.
Qed.

(** ** Conservation of cost across the three blocks *)

Lemma NoDup_pricing_order : NoDup pricing_order.
Proof. apply (bool_decide_unpack (NoDup pricing_order)). by vm_compute. Qed.

(** C1, as amended.  When the absolute costs add up to less than [2^63]
    (no int64 overflow): the costs on the Block-2 lines add up to the grand
    total of the normalized costs when no record lacks its category; the
    costs on the Block-3 lines do when no record lacks its environment; the
    costs on the Block-1 lines do when no record lacks its category, every
    record's pricing model is one of SavingsPlan, Reservation, OnDemand and
    no per-(pricing model, grouped category) sum is negative. *)
Theorem cost_conservation (S : SortImpl) (H : SetOrder) (df : list Row)
    (top_categories : Z) (m : gmap string string) :
  abs_sum df < 2 ^ 63 →
  ((∀ r, r ∈ df → is_Some (MeterCategory r)) →
   edges_total (block2 S H df top_categories m) = grand_total df)
  ∧ ((∀ r, r ∈ df → is_Some (Environment r)) →
     edges_total (block3 S df m) = grand_total df)
  ∧ ((∀ r, r ∈ df → is_Some (MeterCategory r)) →
     (∀ r, r ∈ df → PricingModel r ∈ Some <$> pricing_order) →
     (∀ model cat,
        0 ≤ exact_sum
              (filter (λ r, MeterCategory_Grouped
                              (categories_to_keep S H df top_categories) r = Some cat)
                      (filter (λ r, PricingModel r = Some model) df))) →
     edges_total (block1 S H df top_categories m) = grand_total df).
Proof.
  intros Hb. unfold block1, block2, block3, grand_total. split_and!.
  - intros Hcat. rewrite flow2_total. apply groupby_sum_total; [done|].
    intros r Hr. by apply apply_grouping_present, Hcat.
  - intros Henv. rewrite flow3_total. by apply groupby_sum_total.
  - intros Hcat Hmodels Hpos. unfold flow1. rewrite edges_total_bind.
    rewrite (Zsum_fmap_ext _
      (λ model, exact_sum (filter (λ r, PricingModel r = Some model) df))).
    + apply exact_sum_partition; [apply NoDup_pricing_order|done].
    + intros model _. apply flow1_model_total; [done..|]. intros cat. apply Hpos.
Qed.

(** ** The category selector *)

Lemma elem_of_unique x l : x ∈ unique l ↔ x ∈ l.
Proof.
  induction l as [|y l IH]; [done|]. simpl.
  rewrite !elem_of_cons, list_elem_of_filter, IH.
  destruct (decide (x = y)) as [->|Hne].
  - split; intros _; by left.
  - split; [intros [?|[_ ?]]; auto|intros [?|?]; [done|by right]].
Qed.

Lemma NoDup_unique l : NoDup (unique l).
Proof.
  induction l as [|y l IH]; simpl; constructor.
  - rewrite list_elem_of_filter. by intros [? _].
  - eapply sublist_NoDup; [exact IH|]. apply sublist_filter.
Qed.

Lemma elem_of_reservation_cats df c :
  c ∈ reservation_cats df
  ↔ ∃ r, r ∈ df ∧ PricingModel r = Some "Reservation" ∧ MeterCategory r = c.
Proof.
  unfold reservation_cats. rewrite elem_of_unique, list_elem_of_fmap.
  split.
  - intros (r & -> & [? ?]%list_elem_of_filter). eauto.
  - intros (r & ? & ? & <-). exists r. split; [done|].
    by apply list_elem_of_filter.
Qed.

Lemma NoDup_reservation_cats df : NoDup (reservation_cats df).
Proof. apply NoDup_unique. Qed.

Lemma elem_of_grouped_by_cat df c :
  c ∈ (grouped_by_cat df).*1 ↔ ∃ r, r ∈ df ∧ MeterCategory r = Some c.
Proof. apply elem_of_groupby_index. Qed.

Lemma reservation_cats_grouped df c :
  Some c ∈ reservation_cats df → c ∈ (grouped_by_cat df).*1.
Proof.
  rewrite elem_of_reservation_cats, elem_of_grouped_by_cat.
  intros (r & ? & _ & ?). eauto.
Qed.

(** The Series entries whose label is mandatory are at most as many as
    the mandatory categories. *)
Lemma length_mandatory_entries df :
  (length (filter (λ p : string * Z, Some p.1 ∈ reservation_cats df) (grouped_by_cat df))
   ≤ length (reservation_cats df))%nat.
Proof.
  rewrite <- (length_fmap (λ p : string * Z, Some p.1)).
  apply submseteq_length, NoDup_submseteq.
  - change (λ p : string * Z, Some p.1) with (Some ∘ (fst : string * Z → string)).
    rewrite list_fmap_compose. apply (NoDup_fmap_2 Some).
    eapply sublist_NoDup; [apply (NoDup_groupby_index MeterCategory df)|].
    apply fmap_sublist, sublist_filter.
  - intros c (p & -> & [? _]%list_elem_of_filter)%list_elem_of_fmap. done.
Qed.

Lemma length_candidates S df :
  (length (grouped_by_cat df)
   ≤ length (candidates S df) + length (reservation_cats df))%nat.
Proof.
  unfold candidates, non_mandatory. rewrite (sort_values_perm S).
  pose proof (length_mandatory_entries df) as Hm.
  pose proof (Permutation_length
    (filter_app_complement (λ p : string * Z, Some p.1 ∈ reservation_cats df)
       (grouped_by_cat df))) as Hlen.
  rewrite length_app in Hlen. lia.
Qed.

Lemma NoDup_candidates S df : NoDup (candidates S df).*1.
Proof.
  unfold candidates, non_mandatory. rewrite (sort_values_perm S).
  eapply sublist_NoDup; [apply (NoDup_groupby_index MeterCategory df)|].
  apply fmap_sublist, sublist_filter.
Qed.

Lemma elem_of_candidates S df c :
  c ∈ (candidates S df).*1
  ↔ c ∈ (grouped_by_cat df).*1 ∧ Some c ∉ reservation_cats df.
Proof.
  unfold candidates, non_mandatory.
  rewrite (sort_values_perm S), !list_elem_of_fmap. split.
  - intros (p & -> & [? ?]%list_elem_of_filter). eauto.
  - intros [(p & -> & ?) ?]. exists p. split; [done|]. by apply list_elem_of_filter.
Qed.

Lemma NoDup_fillers S df n : NoDup (fillers S df n).
Proof.
  unfold fillers. eapply sublist_NoDup; [apply (NoDup_candidates S df)|].
  apply fmap_sublist, sublist_take.
Qed.

Lemma elem_of_fillers S df n c :
  c ∈ fillers S df n → c ∈ (grouped_by_cat df).*1 ∧ Some c ∉ reservation_cats df.
Proof.
  intros Hc. apply (elem_of_candidates S).
  eapply (sublist_subseteq _ _ (fmap_sublist fst _ _ (sublist_take _ _))), Hc.
Qed.

Lemma length_fillers S df n :
  0 ≤ n → n ≤ Z.of_nat (length (candidates S df)) →
  Z.of_nat (length (fillers S df n)) = n.
Proof.
  intros Hn Hle. unfold fillers. rewrite length_fmap, length_take. lia.
Qed.

(** The three branches of the selector. *)
Lemma categories_to_keep_all S H df cap :
  Z.of_nat (length (grouped_by_cat df)) ≤ cap →
  categories_to_keep S H df cap = Some <$> (grouped_by_cat df).*1.
Proof. intros Hle. unfold categories_to_keep. by rewrite decide_True. Qed.

Lemma categories_to_keep_mandatory S H df cap :
  cap < Z.of_nat (length (grouped_by_cat df)) →
  cap - 1 ≤ Z.of_nat (length (reservation_cats df)) →
  categories_to_keep S H df cap = reservation_cats df.
Proof.
  intros Hgt Hm. unfold categories_to_keep.
  rewrite decide_False by lia. by rewrite decide_True.
Qed.

Lemma NoDup_mandatory_fillers S df n :
  NoDup (reservation_cats df ++ (Some <$> fillers S df n)).
Proof.
  apply NoDup_app. split_and!.
  - apply NoDup_reservation_cats.
  - intros c Hc (f & -> & Hf)%list_elem_of_fmap.
    by apply elem_of_fillers in Hf as [_ ?].
  - apply (NoDup_fmap_2 Some), NoDup_fillers.
Qed.

Lemma categories_to_keep_filled S H df cap :
  cap < Z.of_nat (length (grouped_by_cat df)) →
  Z.of_nat (length (reservation_cats df)) < cap - 1 →
  categories_to_keep S H df cap
  ≡ₚ reservation_cats df
     ++ (Some <$> fillers S df (cap - 1 - Z.of_nat (length (reservation_cats df)))).
Proof.
  intros Hgt Hm. unfold categories_to_keep.
  rewrite decide_False by lia. rewrite decide_False by lia.
  rewrite (set_to_list_perm H). apply NoDup_Permutation.
  - apply NoDup_elements.
  - apply NoDup_mandatory_fillers.
  - intros c. rewrite elem_of_elements, elem_of_union, !elem_of_list_to_set.
    by rewrite elem_of_app.
Qed.

(** A kept category is the category of a record: a name, or the missing
    value when a Reservation record lacks its category. *)
Lemma categories_to_keep_grouped S H df cap c :
  c ∈ categories_to_keep S H df cap → ∃ r, r ∈ df ∧ MeterCategory r = c.
Proof.
  assert (∀ c, c ∈ reservation_cats df → ∃ r, r ∈ df ∧ MeterCategory r = c) as Hres.
  { intros c' (r & ? & _ & ?)%elem_of_reservation_cats. eauto. }
  assert (∀ k, k ∈ (grouped_by_cat df).*1 → ∃ r, r ∈ df ∧ MeterCategory r = Some k)
    as Hgrp by (intros k; by rewrite elem_of_grouped_by_cat).
  destruct (decide (Z.of_nat (length (grouped_by_cat df)) ≤ cap)) as [Hle|Hgt].
  { rewrite categories_to_keep_all by done.
    intros (k & -> & Hk)%list_elem_of_fmap. by apply Hgrp. }
  destruct (decide (cap - 1 ≤ Z.of_nat (length (reservation_cats df)))) as [Hm|Hm].
  { rewrite categories_to_keep_mandatory by lia. apply Hres. }
  rewrite categories_to_keep_filled by lia.
  intros [?|(k & -> & Hf)%list_elem_of_fmap]%elem_of_app; [by apply Hres|].
  apply elem_of_fillers in Hf as [? _]. by apply Hgrp.
Qed.

(** ** Category nodes of the output *)

Lemma elem_of_category_sort_list S df keep c :
  c ∈ (category_sort_list S df keep).*1
  ↔ ∃ r, r ∈ df ∧ MeterCategory_Grouped keep r = Some c.
Proof.
  unfold category_sort_list. rewrite (sort_values_perm S).
  apply elem_of_groupby_index.
Qed.

Lemma elem_of_flow2 S df keep m e :
  e ∈ flow2 S df keep m
  ↔ ∃ p, p ∈ category_sort_list S df keep
         ∧ e = mkEdge (get_label p.1 m) p.2 "TotalMonthly".
Proof.
  unfold flow2. rewrite list_elem_of_fmap.
  split; intros (p & ? & ?); exists p; by split.
Qed.

Lemma flow2_source S df keep m e :
  e ∈ flow2 S df keep m →
  ∃ r c, r ∈ df ∧ MeterCategory_Grouped keep r = Some c ∧ source e = get_label c m.
Proof.
  intros (p & Hp & ->)%elem_of_flow2.
  assert (p.1 ∈ (category_sort_list S df keep).*1) as Hc
    by by apply list_elem_of_fmap_2.
  apply elem_of_category_sort_list in Hc as (r & ? & ?). by exists r, p.1.
Qed.

Lemma flow1_destination S df keep m e :
  e ∈ flow1 S df keep m →
  ∃ r c, r ∈ df ∧ MeterCategory_Grouped keep r = Some c
         ∧ destination e = get_label c m.
Proof.
  unfold flow1, flow1_model. intros (model & He & _)%list_elem_of_bind.
  apply list_elem_of_bind in He as (cat & He & Hcat).
  apply elem_of_category_sort_list in Hcat as (r & ? & ?).
  destruct (series_get _ _) as [c|]; [|by apply elem_of_nil in He].
  case_decide; [|by apply elem_of_nil in He].
  apply list_elem_of_singleton in He as ->. by exists r, cat.
Qed.

(** A category shows up in the second block as soon as one row is grouped
    under it. *)
Lemma flow2_has_category S df keep m r c :
  r ∈ df → MeterCategory_Grouped keep r = Some c →
  ∃ v, mkEdge (get_label c m) v "TotalMonthly" ∈ flow2 S df keep m.
Proof.
  intros Hr Hgrp.
  assert (c ∈ (category_sort_list S df keep).*1) as Hc.
  { apply elem_of_category_sort_list. eauto. }
  apply list_elem_of_fmap in Hc as ([c' v] & Heq & Hp). simpl in Heq.
  exists v. apply elem_of_flow2. exists (c', v). split; [done|]. by rewrite Heq.
Qed.


(** ** The size of the kept set *)

(** C2, as amended.  When the table has at most [cap] distinct categories,
    all of them are kept, so the kept set has at most [cap] members.  When
    it has more and fewer than [cap - 1] of them are mandatory, the kept
    set has exactly [cap - 1] distinct members and at least one category is
    folded, so 'Others' is a category node: 'Others' takes the one
    remaining slot.  When it has more and at least [cap - 1] are mandatory,
    the kept set is exactly the mandatory set, whatever its size. *)
Theorem kept_set_size (S : SortImpl) (H : SetOrder) (df : list Row) (cap : Z) :
  let total := Z.of_nat (length (grouped_by_cat df)) in
  let mandatory := reservation_cats df in
  let keep := categories_to_keep S H df cap in
  (total ≤ cap →
     keep = Some <$> (grouped_by_cat df).*1 ∧ Z.of_nat (length keep) ≤ cap)
  ∧ (cap < total → Z.of_nat (length mandatory) < cap - 1 →
     NoDup keep ∧ Z.of_nat (length keep) = cap - 1
     ∧ "Others" ∈ (category_sort_list S df keep).*1)
  ∧ (cap < total → cap - 1 ≤ Z.of_nat (length mandatory) → keep = mandatory).
Proof.
  intros total mandatory keep. split_and!.
  - intros Hle. subst keep. rewrite categories_to_keep_all by done.
    split; [done|]. by rewrite !length_fmap.
  - intros Hgt Hm.
    pose proof (categories_to_keep_filled S H df cap Hgt Hm) as Hperm.
    pose proof (length_candidates S df) as Hlen.
    assert (Z.of_nat (length keep) = cap - 1) as Hk.
    { subst keep. rewrite Hperm, length_app, length_fmap, Nat2Z.inj_add.
      rewrite length_fillers; subst total mandatory; lia. }
    assert (NoDup keep) as Hnd.
    { subst keep. rewrite Hperm. apply NoDup_mandatory_fillers. }
    split_and!; [done..|].
    destruct (decide (Forall (λ c, Some c ∈ keep) (grouped_by_cat df).*1))
      as [Hall|Hex].
    + exfalso.
      assert (Some <$> (grouped_by_cat df).*1 ⊆ keep) as Hsub.
      { intros c (k & -> & Hk')%list_elem_of_fmap.
        rewrite Forall_forall in Hall. by apply Hall. }
      pose proof (submseteq_length _ _
        (NoDup_submseteq _ _
           (NoDup_fmap_2 Some _ (NoDup_groupby_index MeterCategory df)) Hsub)) as Hl.
      rewrite !length_fmap in Hl. subst total keep.
      unfold grouped_by_cat in *. lia.
    + apply not_Forall_Exists in Hex; [|apply _].
      apply Exists_exists in Hex as (c & Hc & Hnot).
      apply elem_of_grouped_by_cat in Hc as (r & Hr & Hcat).
      apply elem_of_category_sort_list. exists r. split; [done|].
      unfold MeterCategory_Grouped. rewrite Hcat. by apply apply_grouping_folded.
  - intros Hgt Hm. by apply categories_to_keep_mandatory.
Qed.

(** ** Mandatory categories *)

(** C3, as amended.  A category with a Reservation-priced record, in a
    table whose mandatory categories number fewer than [cap - 1], is in the
    kept set, is grouped under its own name on every one of its records
    (never under 'Others'), and has its own line in the second block.  The
    line shows the label of the category: its own name when the label map
    has no entry for it, the name the map gives otherwise. *)
Theorem reservation_category_kept (S : SortImpl) (H : SetOrder) (df : list Row)
    (cap : Z) (m : gmap string string) (c : string) :
  (∃ r, r ∈ df ∧ MeterCategory r = Some c ∧ PricingModel r = Some "Reservation") →
  Z.of_nat (length (reservation_cats df)) < cap - 1 →
  let keep := categories_to_keep S H df cap in
  Some c ∈ keep
  ∧ apply_grouping keep (Some c) = Some c
  ∧ (∀ r, r ∈ df → MeterCategory r = Some c → MeterCategory_Grouped keep r = Some c)
  ∧ (∃ v, mkEdge (get_label c m) v "TotalMonthly" ∈ block2 S H df cap m)
  ∧ (m !! c = None → ∃ v, mkEdge c v "TotalMonthly" ∈ block2 S H df cap m).
Proof.
  intros (r & Hr & Hcat & Hres) Hm keep.
  assert (Some c ∈ reservation_cats df) as Hc.
  { apply elem_of_reservation_cats. eauto. }
  assert (Some c ∈ keep) as Hkeep.
  { subst keep.
    destruct (decide (Z.of_nat (length (grouped_by_cat df)) ≤ cap)) as [Hle|Hgt].
    - rewrite categories_to_keep_all by done.
      by apply list_elem_of_fmap_2, reservation_cats_grouped.
    - rewrite categories_to_keep_filled by lia. apply elem_of_app. by left. }
  assert (MeterCategory_Grouped keep r = Some c) as Hgrp.
  { unfold MeterCategory_Grouped. rewrite Hcat. by apply apply_grouping_kept. }
  split_and!.
  - done.
  - by apply apply_grouping_kept.
  - intros r' _ Hr'. unfold MeterCategory_Grouped. rewrite Hr'.
    by apply apply_grouping_kept.
  - destruct (flow2_has_category S df keep m r c Hr Hgrp) as [v Hv].
    exists v. unfold block2. by fold keep.
  - intros Hraw. destruct (flow2_has_category S df keep m r c Hr Hgrp) as [v Hv].
    exists v. unfold block2. fold keep.
    unfold get_label in Hv. by rewrite Hraw in Hv.
Qed.

(** ** Tables within the cap *)

(** C5, as amended.  When the table has at most [cap] distinct categories,
    every record that has a category keeps it as its grouped category, and
    a record whose category is missing is grouped under 'Others'.  The
    category nodes of the output are the categories of the records, and
    'Others' besides when a record lacks its category: every line of the
    first two blocks names, through the label map, the category of a record
    or that 'Others'.  So 'Others' is a node only when a record's own
    category is 'Others' or is missing. *)
Theorem no_bucket_within_cap (S : SortImpl) (H : SetOrder) (df : list Row)
    (cap : Z) (m : gmap string string) :
  Z.of_nat (length (grouped_by_cat df)) ≤ cap →
  let keep := categories_to_keep S H df cap in
  let is_node c :=
    (∃ r, r ∈ df ∧ MeterCategory r = Some c)
    ∨ (c = "Others" ∧ ∃ r, r ∈ df ∧ MeterCategory r = None) in
  (∀ r, r ∈ df → is_Some (MeterCategory r) →
        MeterCategory_Grouped keep r = MeterCategory r)
  ∧ (∀ r, r ∈ df → MeterCategory r = None →
          MeterCategory_Grouped keep r = Some "Others")
  ∧ (∀ c, c ∈ (category_sort_list S df keep).*1 ↔ is_node c)
  ∧ (∀ e, e ∈ block2 S H df cap m → ∃ c, is_node c ∧ source e = get_label c m)
  ∧ (∀ e, e ∈ block1 S H df cap m → ∃ c, is_node c ∧ destination e = get_label c m).
Proof.
  intros Hle keep is_node.
  assert (keep = Some <$> (grouped_by_cat df).*1) as Hkeep
    by (by apply categories_to_keep_all).
  assert (∀ r, r ∈ df → is_Some (MeterCategory r) →
               MeterCategory_Grouped keep r = MeterCategory r) as Hown.
  { intros r Hr [c Hc]. apply apply_grouping_kept. rewrite Hkeep, Hc.
    apply list_elem_of_fmap_2, elem_of_grouped_by_cat. eauto. }
  assert (∀ r, MeterCategory r = None →
               MeterCategory_Grouped keep r = Some "Others") as Hmiss.
  { intros r Hc. unfold MeterCategory_Grouped. rewrite Hc.
    apply apply_grouping_folded. rewrite Hkeep.
    by intros (k & ? & _)%list_elem_of_fmap. }
  assert (∀ r c, r ∈ df → MeterCategory_Grouped keep r = Some c → is_node c) as Hnode.
  { intros r c Hr Hgrp. destruct (MeterCategory r) as [c'|] eqn:Hcat.
    - left. exists r. split; [done|].
      rewrite Hown in Hgrp by (by rewrite ?Hcat). congruence.
    - right. rewrite Hmiss in Hgrp by done. injection Hgrp as <-. eauto. }
  split_and!.
  - done.
  - intros r _. apply Hmiss.
  - intros c. rewrite elem_of_category_sort_list. split.
    + intros (r & Hr & Hgrp). by eapply Hnode.
    + intros [(r & Hr & Hcat)|(-> & r & Hr & Hcat)]; exists r; (split; [done|]).
      * rewrite Hown by (by rewrite ?Hcat). done.
      * by apply Hmiss.
  - intros e He. unfold block2 in He. fold keep in He.
    destruct (flow2_source S df keep m e He) as (r & c & Hr & Hgrp & Heq).
    exists c. split; [by eapply Hnode|done].
  - intros e He. unfold block1 in He. fold keep in He.
    destruct (flow1_destination S df keep m e He) as (r & c & Hr & Hgrp & Heq).
    exists c. split; [by eapply Hnode|done].
Qed.

(** ** A cap of one or less *)


(** ** The umbrella category *)

Lemma clean_row_fields x r :
  clean_row x = Some r →
  MeterCategory r = merge_umbrella <$> csv_MeterCategory x
  ∧ PricingModel r = csv_PricingModel x
  ∧ Environment r = csv_Environment x
  ∧ Cost.clean_cost (csv_MonthyCost x) = Some (MonthyCost r).
Proof.
  unfold clean_row. destruct (Cost.clean_cost (csv_MonthyCost x)) as [z|]; [|done].
  simpl. by intros [= <-].
Qed.

Lemma clean_table_rows raw df :
  clean_table raw = Some df →
  (∀ r, r ∈ df → ∃ x, x ∈ raw ∧ clean_row x = Some r)
  ∧ (∀ x, x ∈ raw → ∃ r, r ∈ df ∧ clean_row x = Some r).
Proof.
  unfold clean_table. rewrite mapM_Some. intros Hall. split.
  - intros r (i & Hi)%list_elem_of_lookup_1.
    destruct (Forall2_lookup_r _ _ _ _ _ Hall Hi) as (x & Hx & Hrow).
    exists x. split; [by eapply list_elem_of_lookup_2|done].
  - intros x (i & Hi)%list_elem_of_lookup_1.
    destruct (Forall2_lookup_l _ _ _ _ _ Hall Hi) as (r & Hr & Hrow).
    exists r. split; [by eapply list_elem_of_lookup_2|done].
Qed.

Lemma merge_umbrella_member c : c ∈ umbrella_members → merge_umbrella c = "ETL Tools".
Proof. intros Hc. unfold merge_umbrella. by rewrite decide_True. Qed.

Lemma merge_umbrella_not_member c : merge_umbrella c ∉ umbrella_members.
Proof.
  unfold merge_umbrella. case_decide as Hc; [|done].
  apply (bool_decide_unpack (_ ∉ umbrella_members)). by vm_compute.
Qed.

Lemma Others_not_member : "Others" ∉ umbrella_members.
Proof. apply (bool_decide_unpack (_ ∉ umbrella_members)). by vm_compute. Qed.

(** After line 53 no grouped category is one of the two merged names. *)
Lemma grouped_not_member raw df keep r c :
  clean_table raw = Some df → r ∈ df →
  MeterCategory_Grouped keep r = Some c → c ∉ umbrella_members.
Proof.
  intros Hclean Hr.
  destruct (proj1 (clean_table_rows _ _ Hclean) r Hr) as (x & _ & Hrow).
  apply clean_row_fields in Hrow as (Hcat & _).
  unfold MeterCategory_Grouped, apply_grouping. case_decide.
  - rewrite Hcat. destruct (csv_MeterCategory x) as [c'|]; [|done].
    simpl. intros [= <-]. apply merge_umbrella_not_member.
  - intros [= <-]. apply Others_not_member.
Qed.

(** C9.  The merge of line 53 comes before the mandatory list of line 61:
    when a record read as 'Azure Data Factory v2' or 'Azure Synapse
    Analytics' is Reservation-priced, 'ETL Tools' is mandatory.  Neither of
    the two names is a category of the output: none is an entry of the
    series that orders the categories, and every line of the first two
    blocks carries the label of a name that is neither of them. *)
Theorem umbrella_merged_before_mandatory (raw : list RawRow) (df : list Row) :
  clean_table raw = Some df →
  (∃ x c, x ∈ raw ∧ csv_MeterCategory x = Some c ∧ c ∈ umbrella_members
          ∧ csv_PricingModel x = Some "Reservation") →
  Some "ETL Tools" ∈ reservation_cats df
  ∧ ∀ (S : SortImpl) (H : SetOrder) (cap : Z) (m : gmap string string),
      (∀ c, c ∈ (category_sort_list S df (categories_to_keep S H df cap)).*1 →
            c ∉ umbrella_members)
      ∧ (∀ e, e ∈ block2 S H df cap m →
              ∃ c, (c ∉ umbrella_members) ∧ source e = get_label c m)
      ∧ (∀ e, e ∈ block1 S H df cap m →
              ∃ c, (c ∉ umbrella_members) ∧ destination e = get_label c m).
Proof.
  intros Hclean (x & c & Hx & Hc & Hmem & Hres). split.
  - destruct (proj2 (clean_table_rows _ _ Hclean) x Hx) as (r & Hr & Hrow).
    apply clean_row_fields in Hrow as (Hcat & Hpm & _).
    apply elem_of_reservation_cats. exists r. split_and!; [done|congruence|].
    rewrite Hcat, Hc. simpl. by rewrite merge_umbrella_member.
  - intros S H cap m. set (keep := categories_to_keep S H df cap). split_and!.
    + intros c' Hc'. apply elem_of_category_sort_list in Hc' as (r & Hr & Hgrp).
      by eapply grouped_not_member.
    + intros e He. unfold block2 in He. fold keep in He.
      destruct (flow2_source S df keep m e He) as (r & c' & Hr & Hgrp & Heq).
      exists c'. split; [|exact Heq]. by eapply grouped_not_member.
    + intros e He. unfold block1 in He. fold keep in He.
      destruct (flow1_destination S df keep m e He) as (r & c' & Hr & Hgrp & Heq).
      exists c'. split; [|exact Heq]. by eapply grouped_not_member.
Qed.

(** ** Determinism *)

Lemma groupby_sum_ext (k1 k2 : Row → option string) df :
  (∀ r, k1 r = k2 r) → groupby_sum k1 df = groupby_sum k2 df.
Proof.
  intros Hk. unfold groupby_sum, present_keys.
  assert (omap k1 df = omap k2 df) as ->.
  { apply list_omap_ext, Forall_Forall2_diag, Forall_forall. intros r _. apply Hk. }
  apply list_fmap_ext. intros _ k _. f_equal. f_equal.
  apply list_filter_iff. intros r. by rewrite Hk.
Qed.

Lemma apply_grouping_perm keep1 keep2 c :
  keep1 ≡ₚ keep2 → apply_grouping keep1 c = apply_grouping keep2 c.
Proof.
  intros Hp. unfold apply_grouping.
  destruct (decide (c ∈ keep1)) as [Hin|Hin]; rewrite Hp in Hin.
  - by rewrite decide_True.
  - by rewrite decide_False.
Qed.

(** The kept list depends on the order of the set only up to a
    rearrangement. *)
Lemma categories_to_keep_set_order S H1 H2 df cap :
  categories_to_keep S H1 df cap ≡ₚ categories_to_keep S H2 df cap.
Proof.
  unfold categories_to_keep. repeat case_decide; [done..|].
  by rewrite !set_to_list_perm.
Qed.

Lemma category_sort_list_ext S df keep1 keep2 :
  (∀ c, apply_grouping keep1 c = apply_grouping keep2 c) →
  category_sort_list S df keep1 = category_sort_list S df keep2.
Proof.
  intros Hg. unfold category_sort_list. f_equal.
  apply groupby_sum_ext. intros r. apply Hg.
Qed.

Lemma flow1_ext S df keep1 keep2 m :
  (∀ c, apply_grouping keep1 c = apply_grouping keep2 c) →
  flow1 S df keep1 m = flow1 S df keep2 m.
Proof.
  intros Hg. unfold flow1. apply list_bind_ext; [|done]. intros model.
  unfold flow1_model. rewrite (category_sort_list_ext S df keep1 keep2 Hg).
  apply list_bind_ext; [|done]. intros cat.
  rewrite (groupby_sum_ext (MeterCategory_Grouped keep1) (MeterCategory_Grouped keep2));
    [done|]. intros r. apply Hg.
Qed.

Lemma flow2_ext S df keep1 keep2 m :
  (∀ c, apply_grouping keep1 c = apply_grouping keep2 c) →
  flow2 S df keep1 m = flow2 S df keep2 m.
Proof.
  intros Hg. unfold flow2. by rewrite (category_sort_list_ext S df keep1 keep2 Hg).
Qed.

Lemma sankey_lines_set_order S H1 H2 df cap m :
  sankey_lines S H1 df cap m = sankey_lines S H2 df cap m.
Proof.
  pose proof (λ c, apply_grouping_perm _ _ c
    (categories_to_keep_set_order S H1 H2 df cap)) as Hg.
  unfold sankey_lines, block1, block2.
  by rewrite (flow1_ext _ _ _ _ m Hg), (flow2_ext _ _ _ _ m Hg).
Qed.

(** C8.  Two runs on the same table, cap and label map give the same
    string, byte for byte.  The only thing that can differ between two
    runs on one installation is the iteration order of the Python set of
    line 83 (it follows the hash seed of the process): the output does not
    depend on it, since the kept list is only tested for membership. *)
Theorem output_deterministic (S : SortImpl) (H1 H2 : SetOrder)
    (raw : list RawRow) (top_categories : Z) (overwrite_map : gmap string string) :
  generate_sankey_data S H1 raw top_categories overwrite_map
  = generate_sankey_data S H2 raw top_categories overwrite_map.
Proof.
  unfold generate_sankey_data. destruct (clean_table raw) as [df|]; [|done].
  simpl. by rewrite (sankey_lines_set_order S H1 H2).
Qed.

(** ** The cost normalizer rounds half to even *)

Lemma rne_div_spec a b : 0 < b → nearest_ties_even a b (Cost.rne_div a b).
Proof.
  intros Hb. unfold nearest_ties_even, Cost.rne_div.
  pose proof (Z.div_mod a b ltac:(lia)) as Hdm.
  pose proof (Z.mod_pos_bound a b Hb) as Hr.
  destruct (Z.compare_spec (2 * (a `mod` b)) b) as [Heq|Hlt|Hgt].
  - destruct (Z.even (a `div` b)) eqn:Hev.
    + split; [lia|done].
    + split; [lia|]. intros _.
      replace (a `div` b + 1) with (Z.succ (a `div` b)) by lia.
      rewrite Z.even_succ, <- Z.negb_even, Hev. done.
  - split; lia.
  - split; lia.
Qed.


Lemma nearest_ties_even_unique num den z1 z2 :
  0 < den → nearest_ties_even num den z1 → nearest_ties_even num den z2 → z1 = z2.
Proof.
  intros Hd [Ha1 He1] [Ha2 He2].
  assert (z1 - z2 = 0 ∨ z1 - z2 = 1 ∨ z1 - z2 = -1) as [?|[Hd1|Hd1]] by nia; [lia|..].
  - assert (Z.abs (2 * (num - z1 * den)) = den) as H1 by nia.
    assert (Z.abs (2 * (num - z2 * den)) = den) as H2 by nia.
    specialize (He1 H1). specialize (He2 H2).
    replace z1 with (Z.succ z2) in He1 by lia.
    rewrite Z.even_succ, <- Z.negb_even, He2 in He1. done.
  - assert (Z.abs (2 * (num - z1 * den)) = den) as H1 by nia.
    assert (Z.abs (2 * (num - z2 * den)) = den) as H2 by nia.
    specialize (He1 H1). specialize (He2 H2).
    replace z2 with (Z.succ z1) in He2 by lia.
    rewrite Z.even_succ, <- Z.negb_even, He1 in He2. done.
Qed.

Lemma rne_div_opp a b : 0 < b → Cost.rne_div (- a) b = - Cost.rne_div a b.
Proof.
  intros Hb. apply (nearest_ties_even_unique (- a) b); [done|by apply rne_div_spec|].
  destruct (rne_div_spec a b Hb) as [Ha He]. split.
  - replace (2 * (- a - - Cost.rne_div a b * b)) with (- (2 * (a - Cost.rne_div a b * b))) by lia.
    by rewrite Z.abs_opp.
  - replace (2 * (- a - - Cost.rne_div a b * b)) with (- (2 * (a - Cost.rne_div a b * b))) by lia.
    rewrite Z.abs_opp, Z.even_opp. done.
Qed.

Lemma rne_div_exact a b : 0 < b → a `mod` b = 0 → Cost.rne_div a b * b = a.
Proof.
  intros Hb Hm. unfold Cost.rne_div. rewrite Hm.
  pose proof (Z.div_mod a b ltac:(lia)).
  destruct (Z.compare_spec (2 * 0) b); lia.
Qed.

Lemma rne_div_bounds a b : 0 ≤ a → 0 < b → 0 ≤ Cost.rne_div a b ≤ a.
Proof.
  intros Ha Hb. destruct (rne_div_spec a b Hb) as [Hz _].
  split; nia.
Qed.

Lemma binade_bound p q :
  0 < p < 2 ^ 52 → 0 < q →
  Cost.binade p q < 0
  ∧ (2 ^ 52 * q ≤ p * 2 ^ (- Cost.binade p q) ∨ Cost.binade p q = -1074).
Proof.
  intros Hp Hq. unfold Cost.binade.
  destruct (Z.log2_spec p ltac:(lia)) as [Hlp1 Hlp2].
  destruct (Z.log2_spec q ltac:(lia)) as [Hlq1 Hlq2].
  pose proof (Z.log2_nonneg p) as Hlp0. pose proof (Z.log2_nonneg q) as Hlq0.
  assert (Z.log2 p < 52) as Hlp by (apply Z.log2_lt_pow2; lia).
  set (e0 := Z.log2 p - Z.log2 q - 52) in *.
  assert (e0 < 0) as He0 by lia.
  unfold Cost.scale2. rewrite (proj2 (Z.leb_gt 0 e0)) by lia.
  destruct (p * 2 ^ (- e0) <? q * 2 ^ 52) eqn:Hcmp.
  - split; [lia|].
    destruct (Z.max_spec (e0 - 1) (-1074)) as [[_ ->]|[_ ->]]; [by right|left].
    replace (- (e0 - 1)) with (Z.log2 q + 53 - Z.log2 p) by lia.
    assert (2 ^ Z.log2 p * 2 ^ (Z.log2 q + 53 - Z.log2 p) = 2 ^ 52 * 2 ^ Z.succ (Z.log2 q))
      as Hpow.
    { rewrite <- !Z.pow_add_r by lia. f_equal. lia. }
    assert (0 < 2 ^ (Z.log2 q + 53 - Z.log2 p)) by (apply Z.pow_pos_nonneg; lia).
    nia.
  - split; [lia|]. apply Z.ltb_ge in Hcmp.
    destruct (Z.max_spec e0 (-1074)) as [[_ ->]|[_ ->]]; [by right|left]. lia.
Qed.

(** Rounding [p / q] to binary64 and then to an integer gives the same
    integer as rounding [p / q] at once, when [p] has fewer than 53 bits:
    the float cannot reach a halfway point that the fraction does not sit
    on. *)
Lemma double_rounding_exact p q e :
  0 < p < 2 ^ 52 → 0 < q → e < 0 →
  2 ^ 52 * q ≤ p * 2 ^ (- e) ∨ e = -1074 →
  Cost.round0 (Cost.rne_div (p * 2 ^ (- e)) q) e = Cost.rne_div p q.
Proof.
  intros Hp Hq He Hbin. unfold Cost.round0. rewrite (proj2 (Z.leb_gt 0 e)) by lia.
  assert (2 ^ (- e) = 2 * 2 ^ (- e - 1)) as HE.
  { rewrite <- Z.pow_succ_r by lia. f_equal. lia. }
  assert (0 < 2 ^ (- e - 1)) as HE' by (apply Z.pow_pos_nonneg; lia).
  set (E := 2 ^ (- e)) in *. set (E' := 2 ^ (- e - 1)) in *.
  destruct (rne_div_spec (p * E) q Hq) as [Hm1 Hm2].
  set (m := Cost.rne_div (p * E) q) in *.
  destruct (rne_div_spec m E ltac:(lia)) as [Hz1 Hz2].
  set (z := Cost.rne_div m E) in *.
  apply (nearest_ties_even_unique p q); [done| |by apply rne_div_spec].
  split.
  - destruct (decide (q < E)) as [HqE|HqE]; [nia|].
    destruct Hbin as [Hn | Hsub]; [nia|]. subst e.
    assert (E = 2 ^ 1074) as HEv by done.
    assert (2 ^ 54 < E) as Hbig by (rewrite HEv; done).
    assert (0 ≤ m ≤ p) as Hm by nia.
    assert (z = 0) as -> by nia. lia.
  - intros Htie.
    assert ((p * E) `mod` q = 0) as Hmod.
    { apply Z.mod_divide; [lia|].
      destruct (Z.abs_spec (2 * (p - z * q))) as [[_ Habs]|[_ Habs]];
        rewrite Habs in Htie.
      - exists ((2 * z + 1) * E'). rewrite HE. nia.
      - exists ((2 * z - 1) * E'). rewrite HE. nia. }
    pose proof (rne_div_exact (p * E) q Hq Hmod) as Hex. fold m in Hex.
    apply Hz2. nia.
Qed.




Lemma digit_of_range c d : Cost.digit_of c = Some d → 0 ≤ d ≤ 9.
Proof.
  unfold Cost.digit_of.
  destruct (48 <=? Z.of_N (N_of_ascii c)) eqn:H1; [|done].
  destruct (Z.of_N (N_of_ascii c) <=? 57) eqn:H2; [|done].
  simpl. intros [= <-]. lia.
Qed.

Lemma read_digits_nonneg s acc n acc' n' rest :
  Cost.read_digits s acc n = (acc', n', rest) → 0 ≤ acc → 0 ≤ n → 0 ≤ acc' ∧ 0 ≤ n'.
Proof.
  revert acc n. induction s as [|c s IH]; intros acc n; simpl.
  - intros [= <- <- _]. done.
  - destruct (Cost.digit_of c) as [d|] eqn:Hd.
    + intros Hrd Hacc Hn. apply digit_of_range in Hd.
      apply (IH _ _ Hrd); lia.
    + intros [= <- <- _]. done.
Qed.

Lemma parse_literal_nonneg s l : Cost.parse_literal s = Some l → 0 ≤ Cost.digits l.
Proof.
  unfold Cost.parse_literal. destruct (Cost.read_sign s) as [sg s1].
  destruct (Cost.read_digits s1 0 0) as [[ip ni] s2] eqn:H1.
  destruct (read_digits_nonneg _ _ _ _ _ _ H1) as [Hip Hni]; [done..|].
  assert (∀ s', (if 0 <? ni
                 then (λ e, Cost.Literal sg ip (- e)) <$> Cost.read_exponent s'
                 else None) = Some l → 0 ≤ Cost.digits l) as Hint.
  { intros s'. destruct (0 <? ni); [|done].
    destruct (Cost.read_exponent s') as [e|]; [|done]. by intros [= <-]. }
  destruct s2 as [|c s3]; [apply Hint|].
  destruct (decide (c = "."%char)) as [->|Hc].
  - destruct (Cost.read_digits s3 ip 0) as [[fp nf] s4] eqn:H2.
    destruct (read_digits_nonneg _ _ _ _ _ _ H2) as [Hfp Hnf]; [done..|].
    destruct (0 <? ni + nf); [|done].
    destruct (Cost.read_exponent s4) as [e|]; [|done]. by intros [= <-].
  - intros Hl. apply (Hint (String c s3)).
    destruct c as [[] [] [] [] [] [] [] []]; done.
Qed.

Lemma denominator_pos l : 0 < Cost.denominator l.
Proof.
  unfold Cost.denominator. destruct (0 <=? Cost.scale l) eqn:Hs; [|done].
  apply Z.leb_le in Hs. by apply Z.pow_pos_nonneg.
Qed.

Lemma numerator_nonneg l : 0 ≤ Cost.digits l → 0 ≤ Cost.numerator l.
Proof.
  intros Hd. unfold Cost.numerator. destruct (0 <=? Cost.scale l) eqn:Hs; [done|].
  apply Z.leb_gt in Hs. pose proof (Z.pow_pos_nonneg 10 (- Cost.scale l)). nia.
Qed.


(** When the numerator has fewer than 53 bits, rounding to binary64 and
    then to an integer is rounding the decimal value at once. *)
Lemma to_float64_round l :
  0 ≤ Cost.numerator l < 2 ^ 52 →
  Cost.astype_int (Cost.to_float64 l)
  = Some (Cost.rne_div (Cost.signed_numerator l) (Cost.denominator l)).
Proof.
  intros Hp. unfold Cost.to_float64, Cost.signed_numerator.
  pose proof (denominator_pos l) as Hq.
  set (p := Cost.numerator l) in *. set (q := Cost.denominator l) in *.
  destruct (p =? 0) eqn:Hp0.
  - apply Z.eqb_eq in Hp0. rewrite Hp0.
    assert (Cost.rne_div 0 q = 0) as Hz.
    { pose proof (rne_div_exact 0 q Hq (Z.mod_0_l q ltac:(lia))). nia. }
    destruct (Cost.neg l); rewrite ?Z.opp_0, Hz; by vm_compute.
  - apply Z.eqb_neq in Hp0.
    destruct (binade_bound p q ltac:(lia) Hq) as [He Hbin].
    set (e := Cost.binade p q) in *.
    unfold Cost.scale2. rewrite (proj2 (Z.leb_gt 0 e)) by lia.
    pose proof (double_rounding_exact p q e ltac:(lia) Hq He Hbin) as Hdr.
    pose proof (rne_div_bounds p q ltac:(lia) Hq) as Hb.
    set (m := Cost.rne_div (p * 2 ^ (- e)) q) in *.
    simpl. destruct (Cost.neg l); simpl.
    + assert (Cost.round0 (- m) e = - Cost.rne_div p q) as ->.
      { unfold Cost.round0 in *. rewrite (proj2 (Z.leb_gt 0 e)) in * by lia.
        rewrite rne_div_opp by (apply Z.pow_pos_nonneg; lia). by rewrite Hdr. }
      rewrite rne_div_opp by done.
      rewrite (proj2 (Z.leb_le _ _)), (proj2 (Z.ltb_lt _ _)) by lia. done.
    + rewrite Hdr.
      rewrite (proj2 (Z.leb_le _ _)), (proj2 (Z.ltb_lt _ _)) by lia. done.
Qed.

Lemma reads_as_float s l :
  reads_as s l →
  Cost.python_float (Cost.remove_commas s) = Some (Cost.to_float64 l)
  ∧ 0 ≤ Cost.numerator l.
Proof.
  intros (t & Ht & Hparse). unfold Cost.python_float. rewrite Ht. simpl.
  rewrite Hparse. split; [done|].
  by apply numerator_nonneg, (parse_literal_nonneg (Cost.strip t)).
Qed.

Lemma clean_cost_short_literal s l :
  reads_as s l → Cost.numerator l < 2 ^ 52 →
  Cost.clean_cost s
  = Some (Cost.rne_div (Cost.signed_numerator l) (Cost.denominator l)).
Proof.
  intros [Hfloat Hnum]%reads_as_float Hp. unfold Cost.clean_cost.
  rewrite Hfloat. simpl. by apply to_float64_round.
Qed.


(** ** The order of the index labels *)

Lemma string_compare_refl a : String.compare a a = Eq.
Proof.
  induction a as [|x a IH]; [done|]. simpl.
  unfold Ascii.compare. by rewrite N.compare_refl.
Qed.

Lemma string_compare_lt_trans a b c :
  String.compare a b = Lt → String.compare b c = Lt → String.compare a c = Lt.
Proof.
  revert b c. induction a as [|x a IH]; intros [|y b] [|z c]; simpl; try done.
  unfold Ascii.compare.
  destruct (N.compare_spec (N_of_ascii x) (N_of_ascii y)) as [Hxy|Hxy|Hxy];
    destruct (N.compare_spec (N_of_ascii y) (N_of_ascii z)) as [Hyz|Hyz|Hyz];
    try done; intros H1 H2.
  - rewrite Hxy, Hyz, N.compare_refl. by eapply IH.
  - rewrite Hxy. by apply N.compare_lt_iff in Hyz as ->.
  - rewrite <- Hyz. by apply N.compare_lt_iff in Hxy as ->.
  - assert (N_of_ascii x < N_of_ascii z)%N as Hxz by lia.
    by apply N.compare_lt_iff in Hxz as ->.
Qed.

Lemma index_le_lt_eq a b : index_le a b ↔ a = b ∨ index_lt a b.
Proof.
  unfold index_le, index_lt, String.leb, String.ltb. split.
  - destruct (String.compare a b) eqn:Hc; [|by right|done].
    left. by apply String.compare_eq_iff.
  - intros [->|Hlt]; [by rewrite string_compare_refl|].
    by destruct (String.compare a b).
Qed.

Lemma index_lt_trans a b c : index_lt a b → index_lt b c → index_lt a c.
Proof.
  unfold index_lt, String.ltb. intros Hab Hbc.
  destruct (String.compare a b) eqn:H1; try done.
  destruct (String.compare b c) eqn:H2; try done.
  by rewrite (string_compare_lt_trans a b c).
Qed.

Lemma index_lt_irrefl a : ¬ index_lt a a.
Proof. unfold index_lt, String.ltb. by rewrite string_compare_refl. Qed.

Global Instance index_le_trans : Transitive index_le.
Proof.
  intros a b c. rewrite !index_le_lt_eq.
  intros [->|Hab] [->|Hbc]; eauto using index_lt_trans.
Qed.

Global Instance index_le_total : Total index_le.
Proof. intros a b. apply String.leb_total. Qed.






(** ** Descending orders and ties *)






(** ** numpy's insertion sort *)

Lemma insert_from_end_perm x s : insert_from_end x s ≡ₚ x :: s.
Proof.
  induction s as [|y s IH]; simpl; [done|].
  destruct (Quicksort.less x y); [|done]. rewrite IH. apply Permutation_swap.
Qed.

Lemma insert_last_perm x s : insert_last x s ≡ₚ x :: s.
Proof.
  unfold insert_last.
  by rewrite reverse_Permutation, insert_from_end_perm, reverse_Permutation.
Qed.


Lemma insert_last_nil x : insert_last x [] = [x].
Proof. done. Qed.






Lemma insert_from_end_filter x s v :
  filter (λ p : string * Z, p.2 = v) (insert_from_end x s)
  = filter (λ p : string * Z, p.2 = v) (x :: s).
Proof.
  induction s as [|y s IH]; [done|]. simpl insert_from_end.
  unfold Quicksort.less. destruct (x.2 <? y.2) eqn:Hxy; [|done].
  apply Z.ltb_lt in Hxy.
  rewrite filter_cons, IH, !filter_cons.
  repeat case_decide; try done. lia.
Qed.

Lemma insert_last_filter x s v :
  filter (λ p : string * Z, p.2 = v) (insert_last x s)
  = filter (λ p : string * Z, p.2 = v) (s ++ [x])%list.
Proof.
  unfold insert_last.
  rewrite filter_reverse, insert_from_end_filter, <- filter_reverse.
  by rewrite reverse_cons, reverse_involutive.
Qed.

Lemma insert_from_end_sorted x s :
  StronglySorted (λ a b : string * Z, b.2 ≤ a.2) s →
  StronglySorted (λ a b : string * Z, b.2 ≤ a.2) (insert_from_end x s).
Proof.
  induction 1 as [|y s Hs IH Hy]; simpl.
  - repeat constructor.
  - unfold Quicksort.less. destruct (x.2 <? y.2) eqn:Hxy.
    + apply Z.ltb_lt in Hxy. constructor; [done|].
      rewrite insert_from_end_perm. constructor; [lia|done].
    + apply Z.ltb_ge in Hxy. constructor; [by constructor|].
      constructor; [done|]. eapply Forall_impl; [exact Hy|]. simpl. lia.
Qed.

Lemma reverse_ascending s :
  StronglySorted (λ a b : string * Z, a.2 ≤ b.2) s →
  StronglySorted (λ a b : string * Z, b.2 ≤ a.2) (reverse s).
Proof. apply (StronglySorted_reverse (λ a b : string * Z, a.2 ≤ b.2)). Qed.

Lemma reverse_descending s :
  StronglySorted (λ a b : string * Z, b.2 ≤ a.2) s →
  StronglySorted (λ a b : string * Z, a.2 ≤ b.2) (reverse s).
Proof. apply (StronglySorted_reverse (λ a b : string * Z, b.2 ≤ a.2)). Qed.

Lemma insert_last_sorted x s :
  StronglySorted (λ a b : string * Z, a.2 ≤ b.2) s →
  StronglySorted (λ a b : string * Z, a.2 ≤ b.2) (insert_last x s).
Proof.
  intros Hs. apply reverse_descending, insert_from_end_sorted.
  by apply reverse_ascending.
Qed.

Lemma fold_insert_last acc s :
  StronglySorted (λ a b : string * Z, a.2 ≤ b.2) acc →
  foldl (λ sorted x, insert_last x sorted) acc s ≡ₚ (acc ++ s)%list
  ∧ StronglySorted (λ a b : string * Z, a.2 ≤ b.2)
      (foldl (λ sorted x, insert_last x sorted) acc s)
  ∧ ∀ v, filter (λ p : string * Z, p.2 = v)
           (foldl (λ sorted x, insert_last x sorted) acc s)
         = filter (λ p : string * Z, p.2 = v) (acc ++ s)%list.
Proof.
  revert acc. induction s as [|x s IH]; intros acc Hacc.
  - simpl. rewrite app_nil_r. done.
  - simpl. destruct (IH (insert_last x acc) (insert_last_sorted x acc Hacc))
      as (Hp & Hs & Hf).
    split_and!.
    + rewrite Hp, insert_last_perm. by rewrite <- Permutation_middle.
    + done.
    + intros v. rewrite Hf, !filter_app, insert_last_filter, filter_app.
      rewrite <- app_assoc. f_equal.
      rewrite (filter_cons _ x s), (filter_cons _ x []), filter_nil.
      by case_decide.
Qed.

Lemma sort_by_insertion_perm s : sort_by_insertion s ≡ₚ s.
Proof. apply (fold_insert_last [] s). constructor. Qed.







(** ** The properties on concrete tables *)

Example clean_cost_grouped : Cost.clean_cost "1,234" = Some 1234.
Proof. by vm_compute. Qed.

Example clean_cost_half_to_even_up : Cost.clean_cost "999.5" = Some 1000.
Proof. by vm_compute. Qed.

Example clean_cost_half_to_even_down : Cost.clean_cost "2.5" = Some 2.
Proof. by vm_compute. Qed.

Example clean_cost_fraction : Cost.clean_cost "1,234.6" = Some 1235.
Proof. by vm_compute. Qed.

(** The string is first rounded to binary64, then to an integer. *)
Example clean_cost_double_rounding :
  Cost.clean_cost "1.49999999999999999999" = Some 2.
Proof. by vm_compute. Qed.

(** Exponents, blanks around the number and underscores between digits
    are read. *)
Example clean_cost_other_forms :
  Cost.clean_cost "1e3" = Some 1000
  ∧ Cost.clean_cost " 12 " = Some 12
  ∧ Cost.clean_cost "1_000" = Some 1000
  ∧ Cost.clean_cost "1.5E+2" = Some 150.
Proof. by vm_compute. Qed.

(** Past the int64 range the cast gives the least int64. *)
Example clean_cost_out_of_range :
  Cost.clean_cost "9223372036854775808" = Some (- 2 ^ 63)
  ∧ Cost.clean_cost "1e19" = Some (- 2 ^ 63).
Proof. by vm_compute. Qed.

(** Line 50 raises on a text that is no number, on a missing cost and on
    an infinite one. *)
Example clean_cost_malformed :
  Cost.clean_cost "12a" = None
  ∧ Cost.clean_cost "" = None
  ∧ Cost.clean_cost "nan" = None
  ∧ Cost.clean_cost "inf" = None
  ∧ Cost.clean_cost "1e400" = None.
Proof. by vm_compute. Qed.

Example python_float_tenth :
  Cost.python_float "0.1" = Some (Cost.Finite 7205759403792794 (-56)).
Proof. by vm_compute. Qed.

Example demo_table_clean : clean_table demo_table = Some demo_df.
Proof. by vm_compute. Qed.

(** The example of the specification: A 500 and C 100 on demand, B 300
    reserved, cap 2. *)
Example spec_example_blocks :
  block2 stable_sort elements_order
    [row "A" "OnDemand" "Prod" 500; row "B" "Reservation" "Prod" 300;
     row "C" "OnDemand" "Prod" 100] 2 ∅
  = [mkEdge "Others" 600 "TotalMonthly"; mkEdge "B" 300 "TotalMonthly"].
Proof. by vm_compute. Qed.

(** The list kept by line 83 follows the order of the set; the output does
    not. *)
Example kept_list_follows_set_order :
  categories_to_keep stable_sort elements_order demo_df 4
  = [Some "Virtual Machines"; Some "ETL Tools"; Some "SQL Database"]
  ∧ categories_to_keep stable_sort reversed_order demo_df 4
    = [Some "SQL Database"; Some "ETL Tools"; Some "Virtual Machines"]
  ∧ generate_sankey_data stable_sort elements_order demo_table 4 HARDCODED_OVERWRITE_MAP
    = generate_sankey_data stable_sort reversed_order demo_table 4 HARDCODED_OVERWRITE_MAP.
Proof. by vm_compute. Qed.

Example demo_output :
  generate_sankey_data stable_sort elements_order demo_table 4 HARDCODED_OVERWRITE_MAP
  = Some "SavingsPlan [900] SQL Database
Reservation [250] ETL Tools
OnDemand [1500] Virtual Machines
OnDemand [312] Others
OnDemand [50] ETL Tools

Virtual Machines [1500] TotalMonthly
SQL Database [900] TotalMonthly
Others [312] TotalMonthly
ETL Tools [300] TotalMonthly

TotalMonthly [2700] Prod
TotalMonthly [300] Dev
TotalMonthly [12] Test".
Proof. by vm_compute. Qed.

(** C1 fails as stated, in two ways.  A record priced 'Spot' is counted in
    the second and third blocks and in the grand total, and has no line in
    the first.  A record with no environment is counted in the first and
    second blocks and in the grand total, and has no line in the third. *)
Lemma spot_record_breaks_conservation :
  (clean_table spot_table = Some spot_df
   ∧ block1 stable_sort elements_order spot_df 9 ∅ = []
   ∧ block2 stable_sort elements_order spot_df 9 ∅
     = [mkEdge "Virtual Machines" 10 "TotalMonthly"]
   ∧ block3 stable_sort spot_df ∅ = [mkEdge "TotalMonthly" 10 "Prod"]
   ∧ edges_total (block1 stable_sort elements_order spot_df 9 ∅) = 0
   ∧ edges_total (block2 stable_sort elements_order spot_df 9 ∅) = 10
   ∧ grand_total spot_df = 10)
  ∧ (clean_table no_environment_table = Some no_environment_df
     ∧ block2 stable_sort elements_order no_environment_df 9 ∅
       = [mkEdge "Virtual Machines" 10 "TotalMonthly";
          mkEdge "Storage" 5 "TotalMonthly"]
     ∧ block3 stable_sort no_environment_df ∅ = [mkEdge "TotalMonthly" 10 "Prod"]
     ∧ edges_total (block2 stable_sort elements_order no_environment_df 9 ∅) = 15
     ∧ edges_total (block3 stable_sort no_environment_df ∅) = 10
     ∧ grand_total no_environment_df = 15).
Proof. by vm_compute. Qed.

(** C2 fails as stated: with a cap of 2 and three categories that all have
    a reservation, the three are kept, and no 'Others' line is emitted. *)
Lemma mandatory_set_exceeds_cap :
  clean_table reserved_table = Some reserved_df
  ∧ categories_to_keep stable_sort elements_order reserved_df 2
    = [Some "Virtual Machines"; Some "SQL Database"; Some "Storage"]
  ∧ length (categories_to_keep stable_sort elements_order reserved_df 2) = 3%nat
  ∧ block2 stable_sort elements_order reserved_df 2 ∅
    = [mkEdge "Virtual Machines" 500 "TotalMonthly";
       mkEdge "SQL Database" 300 "TotalMonthly";
       mkEdge "Storage" 100 "TotalMonthly"].
Proof. by vm_compute. Qed.

(** C3 fails as stated: under the built-in label map a Reservation-priced
    'Azure Database for PostgreSQL' is kept and is shown as 'PostgreSQL';
    no line carries its own name. *)
Lemma reserved_category_renamed :
  clean_table postgres_table = Some postgres_df
  ∧ reservation_cats postgres_df = [Some "Azure Database for PostgreSQL"]
  ∧ categories_to_keep stable_sort elements_order postgres_df 9
    = [Some "Azure Database for PostgreSQL"; Some "Storage"]
  ∧ block1 stable_sort elements_order postgres_df 9 HARDCODED_OVERWRITE_MAP
    = [mkEdge "Reservation" 700 "PostgreSQL"; mkEdge "OnDemand" 40 "Storage"]
  ∧ block2 stable_sort elements_order postgres_df 9 HARDCODED_OVERWRITE_MAP
    = [mkEdge "PostgreSQL" 700 "TotalMonthly"; mkEdge "Storage" 40 "TotalMonthly"]
  ∧ generate_sankey_data stable_sort elements_order postgres_table 9
      HARDCODED_OVERWRITE_MAP
    = Some "Reservation [700] PostgreSQL
OnDemand [40] Storage

PostgreSQL [700] TotalMonthly
Storage [40] TotalMonthly

TotalMonthly [740] Prod".
Proof. by vm_compute. Qed.

(** C4 on a failing input: a category whose costs round to zero gets a
    line of cost 0 in the second block, and so does its environment in the
    third. *)
Theorem zero_cost_lines_emitted :
  sankey_blocks stable_sort elements_order zero_table 9 ∅
  = Some ([mkEdge "OnDemand" 120 "Virtual Machines"],
          [mkEdge "Virtual Machines" 120 "TotalMonthly";
           mkEdge "Storage" 0 "TotalMonthly"],
          [mkEdge "TotalMonthly" 120 "Prod"; mkEdge "TotalMonthly" 0 "Dev"])
  ∧ generate_sankey_data stable_sort elements_order zero_table 9 ∅
    = Some "OnDemand [120] Virtual Machines

Virtual Machines [120] TotalMonthly
Storage [0] TotalMonthly

TotalMonthly [120] Prod
TotalMonthly [0] Dev".
Proof. by vm_compute. Qed.

(** C5 fails as stated, in two ways.  A table within the cap whose
    category is itself named 'Others' has 'Others' nodes in its output.  A
    table within the cap with a record that lacks its category has them
    too: the record does not keep its category, it is grouped under
    'Others'. *)
Lemma category_named_others :
  (clean_table others_table = Some others_df
   ∧ Z.of_nat (length (grouped_by_cat others_df)) = 1
   ∧ block1 stable_sort elements_order others_df 9 ∅ = [mkEdge "OnDemand" 10 "Others"]
   ∧ block2 stable_sort elements_order others_df 9 ∅ = [mkEdge "Others" 10 "TotalMonthly"])
  ∧ (clean_table no_category_table = Some no_category_df
     ∧ Z.of_nat (length (grouped_by_cat no_category_df)) = 1
     ∧ MeterCategory_Grouped (categories_to_keep stable_sort elements_order no_category_df 9)
         <$> no_category_df
       = [Some "Virtual Machines"; Some "Others"]
     ∧ block1 stable_sort elements_order no_category_df 9 ∅
       = [mkEdge "OnDemand" 10 "Virtual Machines"; mkEdge "OnDemand" 5 "Others"]
     ∧ block2 stable_sort elements_order no_category_df 9 ∅
       = [mkEdge "Virtual Machines" 10 "TotalMonthly"; mkEdge "Others" 5 "TotalMonthly"]).
Proof. by vm_compute. Qed.



(** ** The theorems at work on the demo table *)

Lemma exact_sum_nonneg rows :
  (∀ r, r ∈ rows → 0 ≤ MonthyCost r) → 0 ≤ exact_sum rows.
Proof.
  induction rows as [|r rows IH]; intros Hpos; [done|].
  rewrite exact_sum_cons.
  assert (0 ≤ MonthyCost r) by (apply Hpos; by left).
  assert (0 ≤ exact_sum rows) by (apply IH; intros; apply Hpos; by right).
  lia.
Qed.

Lemma demo_df_models : ∀ r, r ∈ demo_df → PricingModel r ∈ Some <$> pricing_order.
Proof.
  apply Forall_forall.
  apply (bool_decide_unpack
           (Forall (λ r, PricingModel r ∈ Some <$> pricing_order) demo_df)).
  by vm_compute.
Qed.

Lemma demo_df_nonneg : ∀ r, r ∈ demo_df → 0 ≤ MonthyCost r.
Proof.
  apply Forall_forall.
  apply (bool_decide_unpack (Forall (λ r, 0 ≤ MonthyCost r) demo_df)).
  by vm_compute.
Qed.

Lemma demo_df_categories : ∀ r, r ∈ demo_df → is_Some (MeterCategory r).
Proof.
  apply Forall_forall.
  apply (bool_decide_unpack (Forall (λ r, is_Some (MeterCategory r)) demo_df)).
  by vm_compute.
Qed.

Lemma demo_df_environments : ∀ r, r ∈ demo_df → is_Some (Environment r).
Proof.
  apply Forall_forall.
  apply (bool_decide_unpack (Forall (λ r, is_Some (Environment r)) demo_df)).
  by vm_compute.
Qed.

Lemma cost_conservation_witness :
  edges_total (block2 stable_sort elements_order demo_df 4 ∅) = grand_total demo_df
  ∧ edges_total (block3 stable_sort demo_df ∅) = grand_total demo_df
  ∧ edges_total (block1 stable_sort elements_order demo_df 4 ∅) = grand_total demo_df.
Proof.
  destruct (cost_conservation stable_sort elements_order demo_df 4 ∅)
    as (H2 & H3 & H1); [by vm_compute|].
  split_and!.
  - apply H2, demo_df_categories.
  - apply H3, demo_df_environments.
  - apply H1; [exact demo_df_categories|exact demo_df_models|].
    intros model cat. apply exact_sum_nonneg.
    intros r [_ [_ Hr]%list_elem_of_filter]%list_elem_of_filter.
    by apply demo_df_nonneg.
Defined.

Lemma kept_set_size_witness :
  NoDup (categories_to_keep stable_sort elements_order demo_df 4)
  ∧ Z.of_nat (length (categories_to_keep stable_sort elements_order demo_df 4)) = 4 - 1
  ∧ "Others" ∈ (category_sort_list stable_sort demo_df
                  (categories_to_keep stable_sort elements_order demo_df 4)).*1.
Proof.
  apply (proj1 (proj2 (kept_set_size stable_sort elements_order demo_df 4)));
    by vm_compute.
Defined.

Lemma reservation_category_kept_witness :
  let keep := categories_to_keep stable_sort elements_order demo_df 4 in
  Some "ETL Tools" ∈ keep
  ∧ apply_grouping keep (Some "ETL Tools") = Some "ETL Tools"
  ∧ (∀ r, r ∈ demo_df → MeterCategory r = Some "ETL Tools" →
          MeterCategory_Grouped keep r = Some "ETL Tools")
  ∧ (∃ v, mkEdge (get_label "ETL Tools" ∅) v "TotalMonthly"
          ∈ block2 stable_sort elements_order demo_df 4 ∅)
  ∧ ((∅ : gmap string string) !! "ETL Tools" = None →
     ∃ v, mkEdge "ETL Tools" v "TotalMonthly"
          ∈ block2 stable_sort elements_order demo_df 4 ∅).
Proof.
  apply (reservation_category_kept stable_sort elements_order demo_df 4 ∅ "ETL Tools").
  - exists (row "ETL Tools" "Reservation" "Dev" 250). split_and!; [|done..].
    do 2 apply list_elem_of_further. apply list_elem_of_here.
  - by vm_compute.
Defined.

Lemma no_bucket_within_cap_witness :
  let keep := categories_to_keep stable_sort elements_order demo_df 9 in
  let is_node c :=
    (∃ r, r ∈ demo_df ∧ MeterCategory r = Some c)
    ∨ (c = "Others" ∧ ∃ r, r ∈ demo_df ∧ MeterCategory r = None) in
  (∀ r, r ∈ demo_df → is_Some (MeterCategory r) →
        MeterCategory_Grouped keep r = MeterCategory r)
  ∧ (∀ r, r ∈ demo_df → MeterCategory r = None →
          MeterCategory_Grouped keep r = Some "Others")
  ∧ (∀ c, c ∈ (category_sort_list stable_sort demo_df keep).*1 ↔ is_node c)
  ∧ (∀ e, e ∈ block2 stable_sort elements_order demo_df 9 ∅ →
          ∃ c, is_node c ∧ source e = get_label c ∅)
  ∧ (∀ e, e ∈ block1 stable_sort elements_order demo_df 9 ∅ →
          ∃ c, is_node c ∧ destination e = get_label c ∅).
Proof.
  apply (no_bucket_within_cap stable_sort elements_order demo_df 9 ∅).
  by vm_compute.
Defined.



Lemma umbrella_merged_witness :
  Some "ETL Tools" ∈ reservation_cats demo_df
  ∧ ∀ (S : SortImpl) (H : SetOrder) (cap : Z) (m : gmap string string),
      (∀ c, c ∈ (category_sort_list S demo_df (categories_to_keep S H demo_df cap)).*1 →
            c ∉ umbrella_members)
      ∧ (∀ e, e ∈ block2 S H demo_df cap m →
              ∃ c, (c ∉ umbrella_members) ∧ source e = get_label c m)
      ∧ (∀ e, e ∈ block1 S H demo_df cap m →
              ∃ c, (c ∉ umbrella_members) ∧ destination e = get_label c m).
Proof.
  apply (umbrella_merged_before_mandatory demo_table demo_df).
  - by vm_compute.
  - exists (raw_row "Azure Synapse Analytics" "Reservation" "Dev" "250.5"),
           "Azure Synapse Analytics".
    split_and!; [|done|by vm_compute; right; left|done].
    do 2 apply list_elem_of_further. apply list_elem_of_here.
Defined.


(** * Further properties *)

(** ** What each block contains *)

Lemma elem_of_groupby_sum key df k v :
  (k, v) ∈ groupby_sum key df
  ↔ (∃ r, r ∈ df ∧ key r = Some k)
    ∧ v = column_sum (filter (λ r, key r = Some k) df).
Proof.
  unfold groupby_sum. rewrite list_elem_of_fmap. split.
  - intros (k' & [= -> ->] & Hk). split; [|done].
    by apply elem_of_present_keys, elem_of_sorted_index.
  - intros [Hr ->]. exists k. split; [done|].
    by apply elem_of_sorted_index, elem_of_present_keys.
Qed.

Lemma length_groupby_sum key df :
  length (groupby_sum key df) = length (sorted_index (present_keys key df)).
Proof. unfold groupby_sum. by rewrite length_fmap. Qed.

(** The first block has a line for a pricing model of the fixed list and a
    grouped category exactly when some record has both and the int64 sum of
    the costs of those records is positive; the line carries that sum. *)
Theorem block1_lines (S : SortImpl) (H : SetOrder) (df : list Row) (cap : Z)
    (m : gmap string string) (e : FlowEdge) :
  let grp := MeterCategory_Grouped (categories_to_keep S H df cap) in
  e ∈ block1 S H df cap m
  ↔ ∃ model cat,
      model ∈ pricing_order
      ∧ (∃ r, r ∈ df ∧ PricingModel r = Some model ∧ grp r = Some cat)
      ∧ 0 < column_sum (filter (λ r, grp r = Some cat)
                          (filter (λ r, PricingModel r = Some model) df))
      ∧ e = mkEdge model
              (column_sum (filter (λ r, grp r = Some cat)
                             (filter (λ r, PricingModel r = Some model) df)))
              (get_label cat m).
Proof.
  intros grp. unfold block1, flow1, flow1_model. fold grp.
  rewrite list_elem_of_bind. split.
  - intros (model & He & Hmodel). apply list_elem_of_bind in He as (cat & He & Hcat).
    rewrite series_get_groupby in He.
    destruct (decide (cat ∈ present_keys grp (filter (λ r, PricingModel r = Some model) df)))
      as [Hin|Hin]; [|by apply elem_of_nil in He].
    case_decide as Hpos; [|by apply elem_of_nil in He].
    apply list_elem_of_singleton in He as ->.
    apply elem_of_present_keys in Hin as (r & [Hpm Hr]%list_elem_of_filter & Hgrp).
    exists model, cat. split_and!; [done|by exists r|done|done].
  - intros (model & cat & Hmodel & (r & Hr & Hpm & Hcat) & Hpos & ->).
    exists model. split; [|done]. apply list_elem_of_bind. exists cat. split.
    + rewrite series_get_groupby, decide_True.
      * rewrite decide_True by done. by apply list_elem_of_singleton.
      * apply elem_of_present_keys. exists r. split; [|done].
        by apply list_elem_of_filter.
    + apply elem_of_category_sort_list. by exists r.
Qed.

Lemma descending_fmap_cost (f : string * Z → FlowEdge) (s : Series) :
  (∀ p, cost (f p) = p.2) →
  descending s → StronglySorted (λ a b, cost b ≤ cost a) (f <$> s).
Proof.
  intros Hf. unfold descending.
  apply (StronglySorted_fmap f (λ a b : string * Z, b.2 ≤ a.2)).
  intros a b. by rewrite !Hf.
Qed.

(** The second block has exactly one line for each grouped category that a
    record carries: the line shows the label of the category and the int64
    sum of the costs of its records, and the lines come in descending order
    of cost. *)
Theorem block2_lines (S : SortImpl) (H : SetOrder) (df : list Row) (cap : Z)
    (m : gmap string string) :
  let grp := MeterCategory_Grouped (categories_to_keep S H df cap) in
  (∀ e, e ∈ block2 S H df cap m
        ↔ ∃ cat, (∃ r, r ∈ df ∧ grp r = Some cat)
                 ∧ e = mkEdge (get_label cat m)
                         (column_sum (filter (λ r, grp r = Some cat) df))
                         "TotalMonthly")
  ∧ length (block2 S H df cap m) = length (sorted_index (present_keys grp df))
  ∧ StronglySorted (λ a b, cost b ≤ cost a) (block2 S H df cap m).
Proof.
  intros grp. unfold block2, flow2, category_sort_list. fold grp. split_and!.
  - intros e. rewrite list_elem_of_fmap. split.
    + intros ([cat v] & -> & Hp). rewrite (sort_values_perm S) in Hp.
      apply elem_of_groupby_sum in Hp as [Hr ->]. by exists cat.
    + intros (cat & Hr & ->).
      exists (cat, column_sum (filter (λ r, grp r = Some cat) df)). split; [done|].
      rewrite (sort_values_perm S). by apply elem_of_groupby_sum.
  - by rewrite length_fmap, (sort_values_perm S), length_groupby_sum.
  - apply descending_fmap_cost; [done|apply sort_values_sorted].
Qed.

(** The third block has exactly one line for each environment that a record
    carries, with the int64 sum of the costs of its records, in descending
    order of cost. *)
Theorem block3_lines (S : SortImpl) (df : list Row) (m : gmap string string) :
  (∀ e, e ∈ block3 S df m
        ↔ ∃ env, (∃ r, r ∈ df ∧ Environment r = Some env)
                 ∧ e = mkEdge "TotalMonthly"
                         (column_sum (filter (λ r, Environment r = Some env) df))
                         (get_label env m))
  ∧ length (block3 S df m) = length (sorted_index (present_keys Environment df))
  ∧ StronglySorted (λ a b, cost b ≤ cost a) (block3 S df m).
Proof.
  unfold block3, flow3, environment_sort_list. split_and!.
  - intros e. rewrite list_elem_of_fmap. split.
    + intros ([env v] & -> & Hp). rewrite (sort_values_perm S) in Hp.
      apply elem_of_groupby_sum in Hp as [Hr ->]. by exists env.
    + intros (env & Hr & ->).
      exists (env, column_sum (filter (λ r, Environment r = Some env) df)).
      split; [done|]. rewrite (sort_values_perm S). by apply elem_of_groupby_sum.
  - by rewrite length_fmap, (sort_values_perm S), length_groupby_sum.
  - apply descending_fmap_cost; [done|apply sort_values_sorted].
Qed.

(** ** The kept list *)

Lemma NoDup_categories_to_keep S H df cap : NoDup (categories_to_keep S H df cap).
Proof.
  unfold categories_to_keep. repeat case_decide.
  - apply (NoDup_fmap_2 Some), NoDup_groupby_index.
  - apply NoDup_reservation_cats.
  - rewrite (set_to_list_perm H). apply NoDup_elements.
Qed.

(** The selector keeps each category at most once and keeps only
    categories of the table; a record is grouped under its own category
    when that category is kept and under 'Others' when it is not. *)
Theorem kept_categories_partition (S : SortImpl) (H : SetOrder) (df : list Row)
    (cap : Z) :
  let keep := categories_to_keep S H df cap in
  NoDup keep
  ∧ (∀ c, c ∈ keep → ∃ r, r ∈ df ∧ MeterCategory r = c)
  ∧ (∀ r, r ∈ df →
       (MeterCategory r ∈ keep ∧ MeterCategory_Grouped keep r = MeterCategory r)
       ∨ ((MeterCategory r ∉ keep) ∧ MeterCategory_Grouped keep r = Some "Others")).
Proof.
  intros keep. split_and!.
  - apply NoDup_categories_to_keep.
  - intros c Hc. by apply (categories_to_keep_grouped S H df cap).
  - intros r _. destruct (decide (MeterCategory r ∈ keep)) as [Hin|Hin].
    + left. split; [done|]. by apply apply_grouping_kept.
    + right. split; [done|]. by apply apply_grouping_folded.
Qed.

(** ** Cost cells that make line 50 raise *)


(** ** Integers written out and read back *)

Lemma all_chars_impl (P Q : ascii → bool) s :
  (∀ c, P c = true → Q c = true) → all_chars P s = true → all_chars Q s = true.
Proof.
  intros HPQ. induction s as [|c s IH]; [done|]. simpl.
  intros [Hc Hs]%andb_true_iff. by rewrite (HPQ c Hc), IH.
Qed.

Lemma remove_commas_plain s :
  all_chars (λ c, negb (Ascii.eqb c ",")) s = true → Cost.remove_commas s = s.
Proof.
  induction s as [|c s IH]; [done|]. simpl.
  intros [Hc Hs]%andb_true_iff. apply negb_true_iff in Hc. by rewrite Hc, IH.
Qed.

Lemma remove_underscores_plain prev s :
  Ascii.eqb prev "_" = false →
  all_chars plain_char s = true →
  Cost.remove_underscores_from prev s = Some s.
Proof.
  revert prev. induction s as [|c s IH]; intros prev Hprev; simpl.
  - by rewrite Hprev.
  - intros [[Hc _]%andb_true_iff Hs]%andb_true_iff. apply negb_true_iff in Hc.
    rewrite Hc, Hprev. simpl. by rewrite IH.
Qed.

Lemma lstrip_plain s : all_chars plain_char s = true → Cost.lstrip s = s.
Proof.
  destruct s as [|c s]; [done|]. simpl.
  intros [[_ Hc]%andb_true_iff _]%andb_true_iff. apply negb_true_iff in Hc.
  by rewrite Hc.
Qed.

Lemma rstrip_plain s : all_chars plain_char s = true → Cost.rstrip s = s.
Proof.
  induction s as [|c s IH]; [done|]. simpl.
  intros [[_ Hc]%andb_true_iff Hs]%andb_true_iff. apply negb_true_iff in Hc.
  rewrite IH by done. rewrite Hc. by destruct s.
Qed.

Lemma strip_plain s : all_chars plain_char s = true → Cost.strip s = s.
Proof.
  intros Hs. unfold Cost.strip. by rewrite lstrip_plain, rstrip_plain.
Qed.

(** A character of a written integer: a digit or the minus sign. *)
Lemma pretty_char_plain d :
  plain_char (pretty_N_char d) = true
  ∧ negb (Ascii.eqb (pretty_N_char d) ",") = true.
Proof. unfold pretty_N_char. by repeat case_match. Qed.

Lemma all_chars_pretty_go (P : ascii → bool) x s :
  (∀ d, P (pretty_N_char d) = true) →
  all_chars P s = true → all_chars P (pretty_N_go x s) = true.
Proof.
  intros HP. revert s. induction (N.lt_wf_0 x) as [x _ IH]; intros s Hs.
  destruct (decide (x = 0)%N) as [->|Hx]; [by rewrite pretty_N_go_0|].
  rewrite pretty_N_go_step by lia. apply IH; [apply N.div_lt; lia|].
  simpl. by rewrite HP, Hs.
Qed.

Lemma all_chars_pretty (P : ascii → bool) (z : Z) :
  (∀ d, P (pretty_N_char d) = true) → P "-"%char = true → P "0"%char = true →
  all_chars P (pretty z) = true.
Proof.
  intros HP Hminus Hzero.
  destruct z as [|p|p]; unfold pretty, pretty_Z, pretty, pretty_positive,
    pretty, pretty_N.
  - simpl. by rewrite Hzero.
  - rewrite decide_False by done. by apply all_chars_pretty_go.
  - rewrite decide_False by done.
    change ("-" +:+ pretty_N_go (N.pos p) "")
      with (String "-" (pretty_N_go (N.pos p) "")).
    simpl. rewrite Hminus. by apply all_chars_pretty_go.
Qed.

Lemma digit_of_pretty_char d :
  (d < 10)%N → Cost.digit_of (pretty_N_char d) = Some (Z.of_N d).
Proof.
  intros Hd.
  assert (d = 0 ∨ d = 1 ∨ d = 2 ∨ d = 3 ∨ d = 4 ∨ d = 5 ∨ d = 6 ∨ d = 7
          ∨ d = 8 ∨ d = 9)%N as Hcases by lia.
  repeat (destruct Hcases as [->|Hcases]; [by vm_compute|]). by subst.
Qed.

Lemma read_digits_pretty_go x :
  ∃ k, 0 ≤ k ∧ ((0 < x)%N → 0 < k)
       ∧ ∀ s acc n, Cost.read_digits (pretty_N_go x s) acc n
                    = Cost.read_digits s (acc * 10 ^ k + Z.of_N x) (n + k).
Proof.
  induction (N.lt_wf_0 x) as [x _ IH].
  destruct (decide (x = 0)%N) as [->|Hx].
  { exists 0. split_and!; [done|lia|]. intros s acc n.
    rewrite pretty_N_go_0. f_equal; lia. }
  destruct (IH (x `div` 10)%N) as (k & Hk & _ & Hrd).
  { apply N.div_lt; lia. }
  exists (k + 1). split_and!; [lia|lia|]. intros s acc n.
  rewrite pretty_N_go_step by lia. rewrite Hrd. simpl.
  rewrite digit_of_pretty_char by (apply N.mod_lt; lia).
  f_equal; [|lia].
  rewrite Z.pow_add_r, Z.pow_1_r by lia.
  rewrite (N.div_mod x 10) at 3 by lia.
  rewrite N2Z.inj_add, N2Z.inj_mul. simpl Z.of_N. lia.
Qed.

Lemma pretty_go_head x s :
  (0 < x)%N → ∃ d t, (d < 10)%N ∧ pretty_N_go x s = String (pretty_N_char d) t.
Proof.
  revert s. induction (N.lt_wf_0 x) as [x _ IH]; intros s Hx.
  rewrite pretty_N_go_step by done.
  destruct (decide (x `div` 10 = 0)%N) as [->|Hq].
  - rewrite pretty_N_go_0. eexists _, _. split; [|done]. apply N.mod_lt; lia.
  - apply IH; [apply N.div_lt; lia|by apply N.neq_0_lt_0].
Qed.

Lemma read_sign_pretty_char d t :
  Cost.read_sign (String (pretty_N_char d) t) = (false, String (pretty_N_char d) t).
Proof. unfold pretty_N_char. by repeat case_match. Qed.

Lemma read_digits_pretty_pos p :
  ∃ k, 0 < k ∧ Cost.read_digits (pretty_N_go (Npos p) "") 0 0 = (Zpos p, k, "").
Proof.
  destruct (read_digits_pretty_go (Npos p)) as (k & _ & Hk & Hrd).
  exists k. split; [apply Hk; lia|]. rewrite Hrd. simpl Cost.read_digits.
  by rewrite Z.mul_0_l, !Z.add_0_l.
Qed.

Lemma parse_pretty z :
  Cost.parse_literal (pretty z)
  = Some (Cost.Literal (bool_decide (z < 0)) (Z.abs z) 0).
Proof.
  destruct z as [|p|p]; [by vm_compute|..].
  - unfold pretty, pretty_Z, pretty, pretty_positive, pretty, pretty_N.
    rewrite decide_False by done.
    destruct (pretty_go_head (Npos p) "" ltac:(lia)) as (d & t & _ & Hhead).
    destruct (read_digits_pretty_pos p) as (k & Hk & Hrd).
    unfold Cost.parse_literal. rewrite Hhead, read_sign_pretty_char, <- Hhead.
    rewrite Hrd. cbv beta iota. by rewrite (proj2 (Z.ltb_lt 0 k)) by lia.
  - unfold pretty, pretty_Z, pretty, pretty_positive, pretty, pretty_N.
    rewrite decide_False by done.
    change ("-" +:+ pretty_N_go (N.pos p) "")
      with (String "-" (pretty_N_go (N.pos p) "")).
    destruct (read_digits_pretty_pos p) as (k & Hk & Hrd).
    unfold Cost.parse_literal. cbn [Cost.read_sign].
    rewrite Hrd. cbv beta iota. by rewrite (proj2 (Z.ltb_lt 0 k)) by lia.
Qed.

(** A written integer is read as a literal with its sign, its absolute
    value and no scale: it has no comma, no underscore and no blank. *)
Lemma reads_as_pretty z :
  reads_as (pretty z) (Cost.Literal (bool_decide (z < 0)) (Z.abs z) 0).
Proof.
  exists (pretty z). split.
  - rewrite remove_commas_plain.
    + apply remove_underscores_plain; [done|].
      apply all_chars_pretty; [apply pretty_char_plain|done..].
    + apply all_chars_pretty; [apply pretty_char_plain|done..].
  - rewrite strip_plain; [apply parse_pretty|].
    apply all_chars_pretty; [apply pretty_char_plain|done..].
Qed.

Lemma rne_div_one a : Cost.rne_div a 1 = a.
Proof.
  pose proof (rne_div_exact a 1 ltac:(lia) (Z.mod_1_r a)). lia.
Qed.

Lemma clean_cost_pretty_small z :
  Z.abs z < 2 ^ 52 → Cost.clean_cost (pretty z) = Some z.
Proof.
  intros Hz. rewrite (clean_cost_short_literal _ _ (reads_as_pretty z))
    by (unfold Cost.numerator; simpl; lia).
  unfold Cost.signed_numerator, Cost.numerator, Cost.denominator. simpl.
  rewrite rne_div_one. case_bool_decide; f_equal; lia.
Qed.

(** Writing a normalized cost out as a string and normalizing it again
    gives the cost back, for costs below [2^52] in absolute value. *)
Theorem clean_cost_pretty (z : Z) :
  Z.abs z < 2 ^ 52 → Cost.clean_cost (pretty z) = Some z.
Proof. apply clean_cost_pretty_small. Qed.

Lemma clean_cost_pretty_witness : Cost.clean_cost (pretty (-1500)) = Some (-1500).
Proof. apply clean_cost_pretty. by vm_compute. Defined.

(** ** A second call on the same DataFrame *)

Lemma merge_umbrella_idempotent c : merge_umbrella (merge_umbrella c) = merge_umbrella c.
Proof.
  unfold merge_umbrella at 1. rewrite decide_False; [done|].
  apply merge_umbrella_not_member.
Qed.

Lemma clean_table_again raw df :
  clean_table raw = Some df →
  (∀ r, r ∈ df → Z.abs (MonthyCost r) < 2 ^ 52) →
  clean_table (as_left_by_a_call df) = Some df.
Proof.
  intros Hclean Hsmall. unfold clean_table, as_left_by_a_call.
  apply mapM_Some, Forall2_fmap_l, Forall_Forall2_diag, Forall_forall.
  intros r Hr. unfold clean_row. simpl.
  rewrite clean_cost_pretty_small by by apply Hsmall. simpl.
  destruct (proj1 (clean_table_rows _ _ Hclean) r Hr) as (x & _ & Hrow).
  apply clean_row_fields in Hrow as (Hcat & _).
  assert (merge_umbrella <$> MeterCategory r = MeterCategory r) as ->.
  { rewrite Hcat. destruct (csv_MeterCategory x) as [c|]; [|done]. simpl.
    by rewrite merge_umbrella_idempotent. }
  by destruct r.
Qed.

(** Calling the function again on the DataFrame a first call has rewritten
    gives the same string as the first call, when every normalized cost is
    below [2^52] in absolute value. *)
Theorem second_call_same_output (S : SortImpl) (H : SetOrder) (raw : list RawRow)
    (df : list Row) (cap : Z) (m : gmap string string) :
  clean_table raw = Some df →
  (∀ r, r ∈ df → Z.abs (MonthyCost r) < 2 ^ 52) →
  generate_sankey_data S H (as_left_by_a_call df) cap m
  = generate_sankey_data S H raw cap m.
Proof.
  intros Hclean Hsmall. unfold generate_sankey_data.
  by rewrite (clean_table_again raw df Hclean Hsmall), Hclean.
Qed.

Lemma second_call_witness :
  generate_sankey_data stable_sort elements_order (as_left_by_a_call demo_df) 4 ∅
  = generate_sankey_data stable_sort elements_order demo_table 4 ∅.
Proof.
  apply (second_call_same_output stable_sort elements_order demo_table demo_df 4 ∅).
  - by vm_compute.
  - apply Forall_forall.
    apply (bool_decide_unpack (Forall (λ r, Z.abs (MonthyCost r) < 2 ^ 52) demo_df)).
    by vm_compute.
Defined.

(** ** Separators in a cost *)

Lemma str_app_cons c s t : String c s +:+ t = String c (s +:+ t).
Proof. done. Qed.

Lemma str_app_assoc s t u : (s +:+ t) +:+ u = s +:+ t +:+ u.
Proof. induction s as [|c s IH]; [done|]. by rewrite !str_app_cons, IH. Qed.

Lemma str_app_length s t :
  String.length (s +:+ t) = (String.length s + String.length t)%nat.
Proof. induction s as [|c s IH]; [done|]. rewrite str_app_cons. simpl. by rewrite IH. Qed.

Lemma remove_commas_app s t :
  Cost.remove_commas (s +:+ t) = Cost.remove_commas s +:+ Cost.remove_commas t.
Proof.
  induction s as [|c s IH]; [done|].
  rewrite str_app_cons. cbn [Cost.remove_commas].
  destruct (Ascii.eqb c ","); [done|]. by rewrite IH.
Qed.

(** A comma changes nothing wherever it stands in a cost cell: between any
    two parts of the text, the cell with the comma is normalized as the
    cell without it. *)
Theorem clean_cost_ignores_commas (s t : string) :
  Cost.clean_cost (s +:+ "," +:+ t) = Cost.clean_cost (s +:+ t).
Proof.
  unfold Cost.clean_cost. by rewrite !remove_commas_app.
Qed.
(** ** Replacing and finding in strings *)

Lemma prefix_app old r : String.prefix old (old +:+ r) = true.
Proof.
  induction old as [|c old IH]; [by destruct r|].
  rewrite str_app_cons. simpl. by destruct (ascii_dec c c).
Qed.

Lemma prefix_inv old s : String.prefix old s = true → ∃ r, s = old +:+ r.
Proof.
  revert s. induction old as [|c old IH]; intros s Hp; [by exists s|].
  destruct s as [|b s]; [done|]. simpl in Hp.
  destruct (ascii_dec c b) as [->|]; [|done].
  destruct (IH s Hp) as (r & ->). by exists r.
Qed.

Lemma replace_go_skip old new x post :
  replace_go old new (String.length x) (x +:+ post) = replace_go old new 0 post.
Proof.
  induction x as [|c x IH]; [by destruct post|].
  rewrite str_app_cons. by cbn [replace_go String.length].
Qed.

Lemma replace_go_here old new post :
  old ≠ "" →
  replace_go old new 0 (old +:+ post) = new +:+ replace_go old new 0 post.
Proof.
  intros Hold. destruct old as [|c old]; [done|].
  pose proof (prefix_app (String c old) post) as Hp.
  rewrite str_app_cons in Hp |- *.
  cbn [replace_go]. rewrite Hp.
  cbn [String.length]. rewrite Nat.sub_1_r. cbn [Nat.pred].
  by rewrite replace_go_skip.
Qed.

Lemma replace_go_next old new c r :
  String.prefix old (String c r) = false →
  replace_go old new 0 (String c r) = String c (replace_go old new 0 r).
Proof. intros Hp. cbn [replace_go]. by rewrite Hp. Qed.

Lemma str_find_cons old c r :
  str_find old (String c r)
  = if String.prefix old (String c r) then Some 0%nat else S <$> str_find old r.
Proof. done. Qed.

Lemma str_find_nil old :
  str_find old "" = if String.prefix old "" then Some 0%nat else None.
Proof. done. Qed.

Lemma str_replace_nonempty old new s :
  old ≠ "" → str_replace old new s = replace_go old new 0 s.
Proof. intros Hold. unfold str_replace. by rewrite decide_False. Qed.

(** Without an occurrence, [replace] returns the string itself. *)
Lemma str_replace_absent old new s :
  old ≠ "" → str_find old s = None → str_replace old new s = s.
Proof.
  intros Hold. rewrite str_replace_nonempty by done.
  induction s as [|c r IH]; [done|].
  rewrite str_find_cons. destruct (String.prefix old (String c r)) eqn:Hp; [done|].
  intros Hnone. rewrite replace_go_next by done. f_equal. apply IH.
  by destruct (str_find old r).
Qed.

(** With an occurrence, [replace] keeps what stands before the first one,
    puts [new] in its place and goes on after it. *)
Lemma str_replace_first old new s i :
  old ≠ "" → str_find old s = Some i →
  ∃ pre post,
    s = pre +:+ old +:+ post ∧ String.length pre = i
    ∧ str_replace old new s = pre +:+ new +:+ str_replace old new post.
Proof.
  intros Hold Hfind.
  assert (∃ pre post,
    s = pre +:+ old +:+ post ∧ String.length pre = i
    ∧ replace_go old new 0 s = pre +:+ new +:+ replace_go old new 0 post) as Hgo.
  { revert i Hfind. induction s as [|c r IH]; intros i.
    - rewrite str_find_nil. destruct (String.prefix old "") eqn:Hp; [|done].
      apply prefix_inv in Hp as (post & Hpost). by destruct old.
    - rewrite str_find_cons. destruct (String.prefix old (String c r)) eqn:Hp.
      + intros [= <-]. apply prefix_inv in Hp as (post & Hpost).
        exists "", post. split_and!; [done..|].
        rewrite Hpost. by apply replace_go_here.
      + intros Hfind. destruct (str_find old r) as [j|] eqn:Hj; [|done].
        injection Hfind as <-.
        destruct (IH j eq_refl) as (pre & post & -> & <- & Hrep).
        exists (String c pre), post. split_and!; [done..|].
        rewrite replace_go_next by done. by rewrite Hrep. }
  destruct Hgo as (pre & post & Hs & Hlen & Hrep).
  exists pre, post. by rewrite !str_replace_nonempty.
Qed.

Lemma str_app_inj_length s1 s2 t1 t2 :
  s1 +:+ t1 = s2 +:+ t2 → String.length s1 = String.length s2 →
  s1 = s2 ∧ t1 = t2.
Proof.
  revert s2. induction s1 as [|c s1 IH]; intros [|b s2] Heq Hlen; try done.
  rewrite !str_app_cons in Heq. injection Heq as -> Heq.
  destruct (IH s2 Heq) as [-> ->]; [by injection Hlen|done].
Qed.

(** The cost normalizer's own comma removal is [replace(',', '')]. *)
Lemma remove_commas_is_replace s : Cost.remove_commas s = str_replace "," "" s.
Proof.
  rewrite str_replace_nonempty by done.
  induction s as [|c r IH]; [done|].
  cbn [Cost.remove_commas replace_go]. rewrite IH.
  change (String.prefix "," (String c r))
    with (if ascii_dec "," c then String.prefix "" r else false).
  destruct (ascii_dec "," c) as [<-|Hne].
  - by destruct r.
  - destruct (Ascii.eqb c ",") eqn:Heq; [|done].
    apply Ascii.eqb_eq in Heq. by subst.
Qed.

(** ** The formatted file: lines 206-211 *)

(** Whatever the template holds, a content that is written has the text of
    the template (after the date was put in) up to its first marker
    unchanged, then the marker, a line break and the flows exactly as
    generated, also when the flows themselves contain the marker or the
    date placeholder.  What follows the first marker is treated by the same
    replacement. *)
Theorem flows_follow_first_marker (template_content ts out content : string) :
  splice_template template_content ts out = Some content →
  ∃ pre post,
    str_replace timestamp_placeholder ts template_content = pre +:+ marker +:+ post
    ∧ str_find marker (pre +:+ marker +:+ post) = Some (String.length pre)
    ∧ content = pre +:+ marker +:+ newline +:+ out
                +:+ str_replace marker (marker +:+ newline +:+ out) post.
Proof.
  unfold splice_template, str_contains. intros Hsp.
  destruct (str_find marker (str_replace timestamp_placeholder ts template_content))
    as [i|] eqn:Hfind.
  - rewrite bool_decide_eq_true_2 in Hsp by done. injection Hsp as <-.
    destruct (str_replace_first marker (marker +:+ newline +:+ out) _ i
                ltac:(done) Hfind) as (pre & post & Heq & Hlen & Hrep).
    exists pre, post. split_and!; [done|by rewrite <- Heq, Hlen|].
    by rewrite Hrep, !str_app_assoc.
  - rewrite bool_decide_eq_false_2 in Hsp; [done|]. by intros [? ?].
Qed.

Lemma flows_follow_first_marker_witness :
  ∃ pre post,
    str_replace timestamp_placeholder "2026-01-02 03:04:05" demo_template
      = pre +:+ marker +:+ post
    ∧ str_find marker (pre +:+ marker +:+ post) = Some (String.length pre)
    ∧ ("// generated 2026-01-02 03:04:05" +:+ newline +:+ marker +:+ newline
       +:+ "a [1] b" +:+ newline +:+ "size w 800")
      = pre +:+ marker +:+ newline +:+ "a [1] b"
        +:+ str_replace marker (marker +:+ newline +:+ "a [1] b") post.
Proof.
  apply (flows_follow_first_marker demo_template "2026-01-02 03:04:05" "a [1] b").
  by vm_compute.
Defined.

(** A template with the marker in one place: the file content is the
    template with the date put in and the flows inserted on the line after
    the marker, nothing else changed. *)
Theorem flows_inserted_once (template_content ts out pre post : string) :
  str_replace timestamp_placeholder ts template_content = pre +:+ marker +:+ post →
  str_find marker (pre +:+ marker +:+ post) = Some (String.length pre) →
  str_find marker post = None →
  splice_template template_content ts out
  = Some (pre +:+ marker +:+ newline +:+ out +:+ post).
Proof.
  intros Ht Hfirst Hlast. unfold splice_template, str_contains. rewrite Ht.
  rewrite bool_decide_eq_true_2 by (by rewrite Hfirst).
  destruct (str_replace_first marker (marker +:+ newline +:+ out) _ _
              ltac:(done) Hfirst) as (pre' & post' & Heq & Hlen & Hrep).
  destruct (str_app_inj_length _ _ _ _ Heq (eq_sym Hlen)) as [<- Hrest].
  apply (inj (String.app marker)) in Hrest as <-.
  rewrite Hrep, (str_replace_absent marker _ post) by done.
  by rewrite !str_app_assoc.
Qed.

Lemma flows_inserted_once_witness :
  splice_template demo_template "2026-01-02 03:04:05" "a [1] b"
  = Some (("// generated 2026-01-02 03:04:05" +:+ newline) +:+ marker +:+ newline
          +:+ "a [1] b" +:+ newline +:+ "size w 800").
Proof.
  apply (flows_inserted_once demo_template "2026-01-02 03:04:05" "a [1] b"
           ("// generated 2026-01-02 03:04:05" +:+ newline)
           (newline +:+ "size w 800")); by vm_compute.
Defined.

(** ** Labels *)

Lemma get_label_empty name : get_label name ∅ = name.
Proof. unfold get_label. by rewrite lookup_empty. Qed.

Lemma fmap_list_bind {A B C} (f : B → C) (g : A → list B) (l : list A) :
  f <$> (l ≫= g) = l ≫= (λ x, f <$> g x).
Proof.
  induction l as [|x l IH]; [done|].
  by rewrite !bind_cons, fmap_app, IH.
Qed.

(** The overwrite map renames nodes and does nothing else: with any map,
    each block is the block obtained with the empty map, line by line, with
    the category or environment name of each line replaced by its label.
    The categories kept, the costs, the lines left out and the order of the
    lines do not depend on the map. *)
Theorem labels_only_rename (S : SortImpl) (H : SetOrder) (df : list Row) (cap : Z)
    (m : gmap string string) :
  block1 S H df cap m = relabel_destination m <$> block1 S H df cap ∅
  ∧ block2 S H df cap m = relabel_source m <$> block2 S H df cap ∅
  ∧ block3 S df m = relabel_destination m <$> block3 S df ∅.
Proof.
  unfold block1, block2, block3. split_and!.
  - unfold flow1. rewrite fmap_list_bind. apply list_bind_ext; [|done].
    intros model. unfold flow1_model. rewrite fmap_list_bind.
    apply list_bind_ext; [|done]. intros cat.
    destruct (series_get _ cat) as [c|]; [|done].
    destruct (decide (0 < c)); [|done].
    unfold relabel_destination. simpl. by rewrite get_label_empty.
  - unfold flow2. rewrite <- list_fmap_compose. apply list_fmap_ext.
    intros i p _. unfold relabel_source. simpl. by rewrite get_label_empty.
  - unfold flow3. rewrite <- list_fmap_compose. apply list_fmap_ext.
    intros i p _. unfold relabel_destination. simpl. by rewrite get_label_empty.
Qed.

(** The label of a name after [load_overwrite_map]: the entry taken from
    the file when there is one, otherwise the built-in label, otherwise the
    name itself.  This holds on every path through the function: no file
    asked for, file missing, file merged, and file that fails after part of
    it was merged, in which case the warning that only the defaults are
    used does not keep the merged entries from applying. *)
Theorem loaded_label (json_file_path : option string) (w : World) (name : string) :
  get_label name (load_overwrite_map json_file_path w).1
  = default (get_label name HARDCODED_OVERWRITE_MAP)
            (file_entries json_file_path w !! name).
Proof.
  assert (∀ ext, get_label name (merge_overwrite_map ext)
                 = default (get_label name HARDCODED_OVERWRITE_MAP) (ext !! name))
    as Hmerge.
  { intros ext. unfold get_label, merge_overwrite_map.
    destruct (ext !! name) as [l|] eqn:Hext.
    - by rewrite (lookup_union_Some_l _ _ _ _ Hext).
    - by rewrite lookup_union_r. }
  unfold load_overwrite_map, file_entries.
  destruct json_file_path as [path|]; [|by rewrite lookup_empty].
  destruct (decide (path = "")); [by rewrite lookup_empty|].
  destruct (path_exists w path); [|by rewrite lookup_empty].
  destruct (json_load w); simpl; apply Hmerge.
Qed.


(** ** Runs of [main] *)

(** When a file is written, and with what: exactly when [--Formatted] is
    given, the CSV and the template exist and are read, the table has its
    four columns and line 50 raises on none of its cost cells, the
    template holds the marker after the date was put in, and the write
    succeeds.  Its name is [sankeymatic_], the file time stamp and [.txt];
    its content is the spliced template. *)
Theorem file_written_iff (S : SortImpl) (H : SetOrder) (args : Args) (w : World)
    (name content : string) :
  (∃ ev, main S H args w = Returns ev (FileWritten name content))
  ↔ Formatted args = true
    ∧ path_exists w (csvFile args) = true
    ∧ path_exists w template_file = true
    ∧ write_succeeds w = true
    ∧ name = "sankeymatic_" +:+ file_timestamp w +:+ ".txt"
    ∧ ∃ df t out,
        read_csv w = CsvTable df
        ∧ template_read w = TemplateText t
        ∧ generate_sankey_data S H df (TopCategories args)
            (load_overwrite_map (OverwriteJsonFile args) w).1 = Some out
        ∧ splice_template t (timestamp w) out = Some content.
Proof.
  unfold main, formatted_output.
  destruct (load_overwrite_map (OverwriteJsonFile args) w) as [om loading].
  simpl.
  destruct (path_exists w (csvFile args)); simpl.
  2:{ split; [by intros (ev & [=])|by intros (_ & [=] & _)]. }
  destruct (read_csv w) as [| |df].
  { split; [by intros (ev & [=])|by intros (_ & _ & _ & _ & _ & ? & ? & ? & [=] & _)]. }
  { split; [by intros (ev & [=])|by intros (_ & _ & _ & _ & _ & ? & ? & ? & [=] & _)]. }
  destruct (generate_sankey_data S H df (TopCategories args) om) as [out|] eqn:Hgen.
  2:{ split; [by intros (ev & [=])|].
      intros (_ & _ & _ & _ & _ & ? & ? & ? & [= <-] & _ & Hg & _).
      by rewrite Hgen in Hg. }
  destruct (Formatted args).
  2:{ split; [by intros (ev & [=])|by intros ([=] & _)]. }
  destruct (path_exists w template_file).
  2:{ split; [by intros (ev & [=])|by intros (_ & _ & [=] & _)]. }
  destruct (template_read w) as [|t].
  { split; [by intros (ev & [=])|].
    by intros (_ & _ & _ & _ & _ & ? & ? & ? & _ & [=] & _). }
  destruct (splice_template t (timestamp w) out) as [final|] eqn:Hsp.
  2:{ split; [by intros (ev & [=])|].
      intros (_ & _ & _ & _ & _ & ? & ? & ? & [= <-] & [= <-] & Hg & Hc).
      rewrite Hgen in Hg. injection Hg as <-. by rewrite Hsp in Hc. }
  destruct (write_succeeds w).
  2:{ split; [by intros (ev & [=])|by intros (_ & _ & _ & [=] & _)]. }
  split.
  - intros (ev & [= _ <- <-]). split_and!; [done..|].
    by exists df, t, out.
  - intros (_ & _ & _ & _ & -> & ? & ? & ? & [= <-] & [= <-] & Hg & Hc).
    rewrite Hgen in Hg. injection Hg as <-.
    rewrite Hsp in Hc. injection Hc as <-. by eexists.
Qed.

(** Without [--Screen] and without [--Formatted] the flows are computed
    and dropped: no file is written, and the only things printed are an
    error about the CSV or what loading the overwrite map prints. *)
Theorem nothing_without_flags (S : SortImpl) (H : SetOrder) (args : Args) (w : World) :
  Screen args = false → Formatted args = false →
  ∃ ev,
    (main S H args w = Returns ev NoFile ∨ main S H args w = Stops ev)
    ∧ (ev = [Stderr (InputNotFound (csvFile args))]
       ∨ ev = [Stderr CsvReadError]
       ∨ ev = (load_overwrite_map (OverwriteJsonFile args) w).2).
Proof.
  intros Hscreen Hformatted. unfold main. rewrite Hscreen, Hformatted.
  destruct (load_overwrite_map (OverwriteJsonFile args) w) as [om loading].
  simpl.
  destruct (path_exists w (csvFile args)); simpl.
  2:{ exists [Stderr (InputNotFound (csvFile args))]. split; by left. }
  destruct (read_csv w) as [| |df].
  { exists [Stderr CsvReadError]. split; [by left|by right; left]. }
  { exists loading. split; [by right|by right; right]. }
  exists loading.
  destruct (generate_sankey_data S H df (TopCategories args) om) as [out|].
  - rewrite app_nil_r. split; [by left|by right; right].
  - split; [by right|by right; right].
Qed.

Lemma nothing_without_flags_witness :
  ∃ ev,
    (main stable_sort elements_order quiet_args demo_world = Returns ev NoFile
     ∨ main stable_sort elements_order quiet_args demo_world = Stops ev)
    ∧ (ev = [Stderr (InputNotFound (csvFile quiet_args))]
       ∨ ev = [Stderr CsvReadError]
       ∨ ev = (load_overwrite_map (OverwriteJsonFile quiet_args) demo_world).2).
Proof.
  apply (nothing_without_flags stable_sort elements_order quiet_args demo_world);
    reflexivity.
Defined.

